(** * MNSIM.Interface.layer: quantized crossbar layers

    A shallow embedding of [MNSIM/Interface/layer.py] and the properties of
    its quantizer, bit splitter, partition planner and forward modes.

    Number model.  Python floats and the entries of torch tensors are
    modelled by exact rationals ([Q]); bit widths, cycle counts and hardware
    resolutions are integers ([Z]).  Rounding error of IEEE arithmetic is
    therefore not represented, and neither are the non-finite values [inf]
    and [nan].  Where the source produces them without raising, the model
    stops with the outcome [NonFinite]: a tensor divided by a zero Python
    float in [split_by_bit], and the mean or the deviation of a tensor with
    too few entries.  A division of two Python floats by zero raises
    [ZeroDivisionError] in the source and in the model.

    Tensors are modelled by the list of their entries in storage order;
    element-wise torch operations are [map]s over that list.  The operations
    that depend on the shape ([torch.split], [torch.cat], the layer primitive
    [F.linear] / [F.conv2d]) and [torch.std], whose value is not rational in
    general, belong to the torch library and are parameters of the layer
    model: the class [Torch] and the field [partial_func].

    Effects.  The only state that [forward] mutates is the buffer
    [bit_scale_list].  Functions that read it take the layer object;
    [QuantizeFunction.forward] returns the row that its two [fill_] write,
    and [forward] returns the buffer after the call together with the value
    returned or the exception raised, so that writes made before an
    exception are kept. *)

From Stdlib Require Import String.
From Stdlib Require Import ZArith QArith Qround Qabs Qminmax Qpower Qfield.
From Stdlib Require Import List Bool Lia Lqa Setoid Morphisms.
Import ListNotations.

(** ** Outcomes of fallible code *)

(** The Python exceptions that the source can raise, and [NonFinite], which
    is not an exception: it marks a result with [inf] or [nan] entries. *)
Inductive exn : Type :=
| AssertionError (msg : string)
| ZeroDivisionError
| IndexError
| RuntimeError
| NonFinite.

Inductive result (A : Type) : Type :=
| Ok (a : A)
| Raise (e : exn).

Arguments Ok {A} a.
Arguments Raise {A} e.

Definition rbind {A B} (m : result A) (f : A -> result B) : result B :=
  match m with
  | Ok a => f a
  | Raise e => Raise e
  end.

Declare Scope result_scope.
Delimit Scope result_scope with result.
Notation "x <- m ;; k" := (rbind m (fun x => k))
  (at level 61, m at next level, right associativity) : result_scope.
Notation "'assert!' b 'else' msg ;; k" :=
  (if b then k else Raise (AssertionError msg))
  (at level 61, b at next level, msg at next level, right associativity)
  : result_scope.

Local Open Scope string_scope.
Local Open Scope list_scope.
Local Open Scope Z_scope.

(** Python sequence indexing [l[i]] for a non-negative index. *)
Definition index {A} (l : list A) (i : nat) : result A :=
  match nth_error l i with
  | Some a => Ok a
  | None => Raise IndexError
  end.

(** Python [range(n)] for an integer [n] (empty when [n <= 0]). *)
Definition range (n : Z) : list Z := map Z.of_nat (seq 0 (Z.to_nat n)).

(** Python list repetition [l * n] (empty when [n <= 0]). *)
Definition list_mul {A} (l : list A) (n : Z) : list A :=
  concat (repeat l (Z.to_nat n)).

(** [mapM] for [result]: the first exception stops the traversal. *)
Fixpoint traverse {A B} (f : A -> result B) (l : list A) : result (list B) :=
  match l with
  | [] => Ok []
  | a :: l' =>
      (b <- f a ;; bs <- traverse f l' ;; Ok (b :: bs))%result
  end.

(** ** Thresholds and cycles *)

(** [_get_thres]: [2 ** (bit_width - 1) - 1]. *)
Definition _get_thres (bit_width : Z) : Q :=
  (2 ^ (bit_width - 1) - 1)%Q.

(** [_get_cycle]: [math.ceil((bit_width - 1) / bit_split)]; true division
    raises on a zero divisor. *)
Definition _get_cycle (bit_width bit_split : Z) : result Z :=
  if bit_split =? 0 then Raise ZeroDivisionError
  else Ok (Qceiling (inject_Z (bit_width - 1) / inject_Z bit_split)).

(** ** Partition planner *)

(** [split_by_num(num, base)]:
    [[base] * (num // base) + [num % base] * (num % base > 0)]. *)
Definition split_by_num (num base : Z) : result (list Z) :=
  (assert! (0 <? num) else "num should be greater than 0" ;;
   assert! (0 <? base) else "base should be greater than 0" ;;
   Ok (list_mul [base] (num / base)
       ++ list_mul [num mod base] (Z.b2z (0 <? num mod base))))%result.

Definition sum_Z (l : list Z) : Z := fold_right Z.add 0 l.

(** The chunks of a plan that are smaller than the row capacity, and the
    remainder chunk of the plan, present when the remainder is not zero. *)
Definition undersized (base : Z) (chunks : list Z) : list Z :=
  filter (fun c => c <? base) chunks.

Definition remainder_chunk (num base : Z) : list Z :=
  if 0 <? num mod base then [num mod base] else [].

(** ** Tensors and element-wise operations *)

Local Open Scope Q_scope.

Definition Tensor := list Q.

(** Entry-wise equality of tensors up to the equality of rationals. *)
Definition tensor_eq : Tensor -> Tensor -> Prop := Forall2 Qeq.

(** [torch.round] rounds half to even. *)
Definition round_half_even (x : Q) : Z :=
  let f := Qfloor x in
  match Qcompare (x - inject_Z f) (1 # 2) with
  | Lt => f
  | Gt => (f + 1)%Z
  | Eq => if Z.even f then f else (f + 1)%Z
  end.

Definition torch_round (t : Tensor) : Tensor :=
  map (fun x => inject_Z (round_half_even x)) t.

(** [torch.clamp(t, min=lo, max=hi)] computes [min(max(x, lo), hi)]. *)
Definition clamp (lo hi x : Q) : Q := Qmin (Qmax x lo) hi.

Definition torch_clamp (t : Tensor) (lo hi : Q) : Tensor := map (clamp lo hi) t.

Definition Qsign (x : Q) : Q :=
  match Qcompare x 0 with
  | Lt => -(1)
  | Eq => 0
  | Gt => 1
  end.

Definition torch_sign (t : Tensor) : Tensor := map Qsign t.

Definition torch_abs (t : Tensor) : Tensor := map Qabs t.

(** Truncation toward zero, and the C remainder computed by [torch.fmod]. *)
Definition Qtrunc (x : Q) : Z := if Qle_bool 0 x then Qfloor x else Qceiling x.

Definition Qfmod (x y : Q) : Q := x - inject_Z (Qtrunc (x / y)) * y.

Definition torch_fmod (t : Tensor) (y : Q) : Tensor := map (fun x => Qfmod x y) t.

(** A tensor and a Python scalar. *)
Definition tensor_div (t : Tensor) (s : Q) : Tensor := map (fun x => x / s) t.
Definition tensor_mul (t : Tensor) (s : Q) : Tensor := map (fun x => x * s) t.

(** Two tensors of one shape, entry by entry. *)
Definition zip_with (f : Q -> Q -> Q) (a b : Tensor) : Tensor :=
  map (fun p => f (fst p) (snd p)) (combine a b).

Definition torch_mul : Tensor -> Tensor -> Tensor := zip_with Qmult.
Definition tensor_sub : Tensor -> Tensor -> Tensor := zip_with Qminus.

(** A Python scalar broadcast to the shape of [t]. *)
Definition broadcast (c : Q) (t : Tensor) : Tensor := map (fun _ => c) t.

(** [torch.max(t)] over all entries; raises on an empty tensor. *)
Definition torch_max (t : Tensor) : result Q :=
  match t with
  | [] => Raise RuntimeError
  | x :: t' => Ok (fold_left Qmax t' x)
  end.

(** [torch.mean(t)]; the mean of an empty tensor is [nan]. *)
Definition torch_mean (t : Tensor) : result Q :=
  match t with
  | [] => Raise NonFinite
  | _ => Ok (fold_right Qplus 0 t / inject_Z (Z.of_nat (length t)))
  end.

(** [torch.sum(torch.stack(l, dim=0), dim=0)]: the entry-wise sum of tensors
    of one shape; [torch.stack] raises on an empty list and on tensors of
    different sizes. *)
Definition tensor_add (a b : Tensor) : result Tensor :=
  if Nat.eqb (length a) (length b) then Ok (zip_with Qplus a b)
  else Raise RuntimeError.

Definition sum_stack (l : list Tensor) : result Tensor :=
  match l with
  | [] => Raise RuntimeError
  | t :: l' =>
      fold_left (fun acc x => (a <- acc ;; tensor_add a x)%result) l' (Ok t)
  end.

(** ** Bit splitter *)

(** [split_by_bit(tensor, scale, bit_width, bit_split)].  The leading [0] of
    [t_weight] is a Python scalar, broadcast by the subtraction. *)
Definition split_by_bit (tensor : Tensor) (scale : Q) (bit_width bit_split : Z)
  : result (list Tensor) :=
  (weight_cycle <- _get_cycle bit_width bit_split ;;
   let thres := _get_thres bit_width in
   scaled <- (if Qeq_bool scale 0 then Raise NonFinite
              else Ok (tensor_div tensor scale)) ;;
   let quantize_tensor := torch_clamp (torch_round scaled) (- thres) thres in
   let sign_tensor := torch_sign quantize_tensor in
   let abs_tensor := torch_abs quantize_tensor in
   let t_weight :=
     [broadcast 0 abs_tensor]
     ++ map (fun i => torch_fmod abs_tensor (2 ^ (bit_split * (i + 1))))
            (range (weight_cycle - 1))
     ++ [abs_tensor] in
   traverse
     (fun i =>
        hi <- index t_weight (Z.to_nat (i + 1)) ;;
        lo <- index t_weight (Z.to_nat i) ;;
        Ok (torch_mul sign_tensor
              (tensor_div (tensor_sub hi lo) (2 ^ (bit_split * i)))))
     (range weight_cycle))%result.

(** Recombination of digit slices: [Σ slice_i · 2^(bit_split·i)]. *)
Fixpoint positional_sum_from (bit_split : Z) (i : Z) (digits : list Q) : Q :=
  match digits with
  | [] => 0
  | d :: ds => d * 2 ^ (bit_split * i) + positional_sum_from bit_split (i + 1) ds
  end.

Definition positional_sum (bit_split : Z) (digits : list Q) : Q :=
  positional_sum_from bit_split 0 digits.

(** The integer level of one entry:
    [clamp(round(x / scale), -thres, thres)]. *)
Definition quantize_level (x scale : Q) (bit_width : Z) : Q :=
  let thres := _get_thres bit_width in
  clamp (- thres) thres (inject_Z (round_half_even (x / scale))).

(** One entry of [t_weight[j]] and of [o_weight[i]], as functions of the
    magnitude [m] and of the level [q] of that entry. *)
Definition residue (bit_split cycle : Z) (m : Q) (j : Z) : Q :=
  if (j =? 0)%Z then 0
  else if (j <? cycle)%Z then Qfmod m (2 ^ (bit_split * j))
  else m.

Definition slice_entry (bit_split cycle : Z) (q : Q) (i : Z) : Q :=
  Qsign q * ((residue bit_split cycle (Qabs q) (i + 1)
              - residue bit_split cycle (Qabs q) i) / 2 ^ (bit_split * i)).

(** ** Quantizer *)

(** One row of [bit_scale_list]: [(bit, scale)]. *)
Definition bit_scale : Type := Z * Q.

Record quantize_cfg : Type := {
  mode : string;
  phase : option string;
  bit : Z
}.

(** The part of torch whose results depend on the shape of a tensor, or are
    not rational. *)
Class Torch : Type := {
  torch_std : Tensor -> result Q;
  torch_split : Tensor -> Z -> result (list Tensor);
  torch_cat : list Tensor -> result Tensor
}.

Module QuantizeFunction.

Definition RATIO : Q := 707 # 1000.

(** Lines "get scale" of [forward]. *)
Definition get_scale {T : Torch} (inputs : Tensor) (cfg : quantize_cfg)
    (last_bit_scale : bit_scale) : result Q :=
  (if String.eqb cfg.(mode) "weight" then torch_max (torch_abs inputs)
   else if String.eqb cfg.(mode) "activation" then
     let r_scale := snd last_bit_scale * _get_thres (fst last_bit_scale) in
     match cfg.(phase) with
     | Some p =>
         if String.eqb p "train" then
           sd <- torch_std inputs ;;
           mu <- torch_mean inputs ;;
           let t_scale := 3 * sd + Qabs mu in
           if Qle_bool r_scale 0 then Ok t_scale
           else Ok (RATIO * r_scale + (1 - RATIO) * t_scale)
         else if String.eqb p "test" then Ok r_scale
         else Raise (AssertionError "phase should be train or test")
     | None => Raise (AssertionError "phase should be train or test")
     end
   else Raise (AssertionError "mode should be weight or activation"))%result.

(** Lines "quantize" and "save bit and scale" of [forward]: the divisions
    [scale / thres] and [thres / scale] are divisions of Python floats.
    The second component is the row written by the two [fill_]. *)
Definition quantize (inputs : Tensor) (bit : Z) (scale : Q)
  : result (Tensor * bit_scale) :=
  (let thres := _get_thres bit in
   step <- (if Qeq_bool thres 0 then Raise ZeroDivisionError
            else Ok (scale / thres)) ;;
   let output := tensor_div inputs step in
   let output := torch_clamp (torch_round output) (- thres) thres in
   inv_step <- (if Qeq_bool scale 0 then Raise ZeroDivisionError
                else Ok (thres / scale)) ;;
   let output := tensor_div output inv_step in
   Ok (output, (bit, step)))%result.

Definition forward {T : Torch} (inputs : Tensor) (cfg : quantize_cfg)
    (last_bit_scale : bit_scale) : result (Tensor * bit_scale) :=
  (scale <- get_scale inputs cfg last_bit_scale ;;
   quantize inputs cfg.(bit) scale)%result.

End QuantizeFunction.

Definition Quantize {T : Torch} := QuantizeFunction.forward.

(** One entry of the output of [QuantizeFunction.quantize]. *)
Definition quantize_entry (bit : Z) (scale : Q) (x : Q) : Q :=
  clamp (- _get_thres bit) (_get_thres bit)
        (inject_Z (round_half_even (x / (scale / _get_thres bit))))
  / (_get_thres bit / scale).

(** ** Layer configuration and state *)

(** [layer_ini["quantize"]]. *)
Record quantize_ini : Type := {
  q_input : Z;
  q_weight : Z;
  q_output : Z
}.

(** [layer_ini["hardware"]]. *)
Record hardware_ini : Type := {
  xbar_row : Z;
  cell_bit : Z;
  dac_bit : Z;
  adc_bit : Z;
  point_shift : Z
}.

(** [layer_ini["layer"]]: the keys read by [get_module_config]. *)
Record shape_ini : Type := {
  in_channels : Z;
  in_features : Z;
  out_features : Z;
  kernel_size : Z
}.

Record layer_ini : Type := {
  quantize : quantize_ini;
  hardware : hardware_ini;
  layer : shape_ini
}.

(** The buffer [bit_scale_list]: rows 0, 1 and 2. *)
Record BitScaleState : Type := {
  input_row : bit_scale;
  weight_row : bit_scale;
  output_row : bit_scale
}.

Definition set_input_row (s : BitScaleState) (r : bit_scale) : BitScaleState :=
  {| input_row := r; weight_row := s.(weight_row); output_row := s.(output_row) |}.
Definition set_weight_row (s : BitScaleState) (r : bit_scale) : BitScaleState :=
  {| input_row := s.(input_row); weight_row := r; output_row := s.(output_row) |}.
Definition set_output_row (s : BitScaleState) (r : bit_scale) : BitScaleState :=
  {| input_row := s.(input_row); weight_row := s.(weight_row); output_row := r |}.

(** [get_buffer_list]. *)
Definition get_buffer_list (ini : layer_ini) : BitScaleState :=
  {| input_row := (ini.(quantize).(q_input), -(1));
     weight_row := (ini.(quantize).(q_weight), -(1));
     output_row := (ini.(quantize).(q_output), -(1)) |}.

(** [NAME] of the layer variants. *)
Inductive layer_kind : Type := conv | fc.

(** [get_module_config]: the row capacity of one partition and the sizes of
    the partitions.  The remaining components of the source's result (the
    torch module class and its keyword arguments) are torch's. *)
Definition get_module_config (kind : layer_kind) (ini : layer_ini)
  : result (Z * list Z) :=
  match kind with
  | conv =>
      (let k2 := (ini.(layer).(kernel_size) ^ 2)%Z in
       input_split_num <-
         (if (k2 =? 0)%Z then Raise ZeroDivisionError
          else Ok (Qfloor (inject_Z ini.(hardware).(xbar_row) / inject_Z k2))) ;;
       in_channels_list <- split_by_num ini.(layer).(in_channels) input_split_num ;;
       Ok (input_split_num, in_channels_list))%result
  | fc =>
      (let input_split_num := ini.(hardware).(xbar_row) in
       in_features_list <- split_by_num ini.(layer).(in_features) input_split_num ;;
       Ok (input_split_num, in_features_list))%result
  end.

(** A layer object.  [layer_list] holds the weight of each sub-operation;
    applying a sub-operation [l] to [v] is [partial_func v l.weight], for
    both variants are built without bias and with the stride and padding
    that [partial_func] fixes. *)
Record BaseWeightLayer : Type := {
  ini : layer_ini;
  input_split_num : Z;
  layer_list : list Tensor;
  partial_func : Tensor -> Tensor -> result Tensor;
  training : bool;
  bit_scale_list : BitScaleState
}.

Definition with_bit_scale_list (self : BaseWeightLayer) (s : BitScaleState)
  : BaseWeightLayer :=
  {| ini := self.(ini);
     input_split_num := self.(input_split_num);
     layer_list := self.(layer_list);
     partial_func := self.(partial_func);
     training := self.(training);
     bit_scale_list := s |}.

(** [get_quantize_weight_bit_list]. *)
Definition get_quantize_weight_bit_list (self : BaseWeightLayer)
  : result (list (list Tensor)) :=
  let weight_scale := snd self.(bit_scale_list).(weight_row) in
  let weight_bit_width := fst self.(bit_scale_list).(weight_row) in
  let weight_bit_split := self.(ini).(hardware).(cell_bit) in
  traverse (fun l => split_by_bit l weight_scale weight_bit_width weight_bit_split)
           self.(layer_list).

(** The scalars that [set_weights_forward] computes before its loops. *)
Record adc_scales : Type := {
  weight_cycle : Z;
  input_cycle : Z;
  output_scale : Q;
  mul_scale : Q;
  transfer_scale : Q;
  output_thres : Q
}.

Definition get_adc_scales (self : BaseWeightLayer) : result adc_scales :=
  (let hw := self.(ini).(hardware) in
   let s := self.(bit_scale_list) in
   weight_cycle <- _get_cycle (fst s.(weight_row)) hw.(cell_bit) ;;
   input_cycle <- _get_cycle (fst s.(input_row)) hw.(dac_bit) ;;
   let Q := hw.(adc_bit) in
   let pf := hw.(point_shift) in
   let output_scale := snd s.(output_row) * _get_thres (fst s.(output_row)) in
   let mul_scale :=
     snd s.(weight_row) * snd s.(input_row)
     * 2 ^ ((weight_cycle - 1) * hw.(cell_bit))
     * 2 ^ ((input_cycle - 1) * hw.(dac_bit)) in
   let transfer_scale := 2 ^ (pf + Q - 1) in
   let output_thres := _get_thres Q in
   Ok {| weight_cycle := weight_cycle; input_cycle := input_cycle;
         output_scale := output_scale; mul_scale := mul_scale;
         transfer_scale := transfer_scale; output_thres := output_thres |})%result.

(** The body of the innermost loop of [set_weights_forward] after the call
    of [partial_func]: scaling, rounding and clamping, and the bit shift.
    [mul_scale / output_scale] is a division of Python floats. *)
Definition adc_readout (hw : hardware_ini) (sc : adc_scales) (i j : Z)
    (tmp : Tensor) : result Tensor :=
  (factor <- (if Qeq_bool sc.(output_scale) 0 then Raise ZeroDivisionError
              else Ok (sc.(mul_scale) / sc.(output_scale) * sc.(transfer_scale))) ;;
   let tmp := tensor_mul tmp factor in
   let tmp := torch_clamp (torch_round tmp) (- sc.(output_thres)) sc.(output_thres) in
   let scale_point :=
     ((sc.(input_cycle) - 1 - i) * hw.(dac_bit)
      + (sc.(weight_cycle) - 1 - j) * hw.(cell_bit))%Z in
   let tmp := tensor_div tmp (sc.(transfer_scale) * 2 ^ scale_point) in
   Ok tmp)%result.

(** The loops of [set_weights_forward] over the digit pairs of one
    sub-operation; the result is what they append to [output_list]. *)
Definition digit_pair_loop (self : BaseWeightLayer) (sc : adc_scales)
    (input_activation_bit_list module_weight_bit_list : list Tensor)
  : result (list Tensor) :=
  (rows <- traverse
     (fun i =>
        traverse
          (fun j =>
             a <- index input_activation_bit_list (Z.to_nat i) ;;
             w <- index module_weight_bit_list (Z.to_nat j) ;;
             tmp <- self.(partial_func) a w ;;
             adc_readout self.(ini).(hardware) sc i j tmp)
          (range sc.(weight_cycle)))
     (range sc.(input_cycle)) ;;
   Ok (List.concat rows))%result.

(** The loop of [set_weights_forward] over the sub-operations. *)
Definition module_loop (self : BaseWeightLayer) (sc : adc_scales)
    (input_list : list Tensor) (quantize_weight_bit_list : list (list Tensor))
  : result (list Tensor) :=
  (per_module <- traverse
     (fun p =>
        let layer_num := fst p in
        let module_weight_bit_list := snd p in
        x <- index input_list layer_num ;;
        input_activation_bit_list <-
          split_by_bit x (snd self.(bit_scale_list).(input_row))
                       (fst self.(bit_scale_list).(input_row))
                       self.(ini).(hardware).(dac_bit) ;;
        digit_pair_loop self sc input_activation_bit_list module_weight_bit_list)
     (combine (seq 0 (length quantize_weight_bit_list)) quantize_weight_bit_list) ;;
   Ok (List.concat per_module))%result.

(** [set_weights_forward]. *)
Definition set_weights_forward {T : Torch} (self : BaseWeightLayer) (inputs : Tensor)
    (quantize_weight_bit_list : list (list Tensor)) : result Tensor :=
  (assert! (negb self.(training)) else "function is set_weights_forward, but training" ;;
   input_list <- torch_split inputs self.(input_split_num) ;;
   sc <- get_adc_scales self ;;
   output_list <- module_loop self sc input_list quantize_weight_bit_list ;;
   output <- sum_stack output_list ;;
   let output_thres := _get_thres (fst self.(bit_scale_list).(output_row)) in
   let output :=
     torch_clamp (torch_round (tensor_mul output output_thres))
                 (- output_thres) output_thres in
   inv_step <- (if Qeq_bool sc.(output_scale) 0 then Raise ZeroDivisionError
                else Ok (output_thres / sc.(output_scale))) ;;
   Ok (tensor_div output inv_step))%result.

(** The treatment of one entry of a raw partial sum in the words of the
    specification: multiply by [mul_scale / output_scale · transfer_scale],
    round and clamp to the threshold of [adc_bit], divide by
    [transfer_scale · 2^scale_point]. *)
Definition spec_partial_sum (self : BaseWeightLayer) (weight_cycle input_cycle i j : Z)
    (raw : Q) : Q :=
  let hw := self.(ini).(hardware) in
  let s := self.(bit_scale_list) in
  let weight_step := snd s.(weight_row) in
  let input_step := snd s.(input_row) in
  let output_step := snd s.(output_row) in
  let output_bits := fst s.(output_row) in
  let mul_scale :=
    weight_step * input_step
    * 2 ^ ((weight_cycle - 1) * hw.(cell_bit))
    * 2 ^ ((input_cycle - 1) * hw.(dac_bit)) in
  let transfer_scale := 2 ^ (hw.(point_shift) + hw.(adc_bit) - 1) in
  let output_scale := output_step * _get_thres output_bits in
  let threshold := _get_thres hw.(adc_bit) in
  let scale_point :=
    ((input_cycle - 1 - i) * hw.(dac_bit) + (weight_cycle - 1 - j) * hw.(cell_bit))%Z in
  clamp (- threshold) threshold
        (inject_Z (round_half_even (raw * (mul_scale / output_scale * transfer_scale))))
  / (transfer_scale * 2 ^ scale_point).



(** [forward]: the buffer after the call, and the value returned or the
    exception raised.  Writes to the buffer made before an exception stay. *)
Definition forward {T : Torch} (self : BaseWeightLayer) (inputs : Tensor)
    (method : string) (input_config : option (list bit_scale))
  : BitScaleState * result Tensor :=
  let s := self.(bit_scale_list) in
  if String.eqb method "TRADITION" then
    (s,
     (input_list <- torch_split inputs self.(input_split_num) ;;
      output_list <- traverse (fun lv => self.(partial_func) (snd lv) (fst lv))
                              (combine self.(layer_list) input_list) ;;
      sum_stack output_list)%result)
  else if String.eqb method "FIX_TRAIN" then
    match (weight_total <- torch_cat self.(layer_list) ;;
           Quantize weight_total
             {| mode := "weight"; phase := None; bit := fst s.(weight_row) |}
             s.(weight_row))%result with
    | Raise e => (s, Raise e)
    | Ok (quantize_weight, row1) =>
        let s1 := set_weight_row s row1 in
        match (output <- self.(partial_func) inputs quantize_weight ;;
               Quantize output
                 {| mode := "activation";
                    phase := Some (if self.(training) then "train" else "test");
                    bit := fst s1.(output_row) |}
                 s1.(output_row))%result with
        | Raise e => (s1, Raise e)
        | Ok (quantize_output, row2) => (set_output_row s1 row2, Ok quantize_output)
        end
    end
  else if String.eqb method "SINGLE_FIX_TEST" then
    if self.(training) then
      (s, Raise (AssertionError "method is SINGLE_FIX_TEST, but now is training"))
    else
      match input_config with
      | None =>
          (s, Raise (AssertionError "method is SINGLE_FIX_TEST, but input_config is None"))
      | Some cfg =>
          match index cfg 0 with
          | Raise e => (s, Raise e)
          | Ok r0 =>
              let s1 := set_input_row s r0 in
              let self1 := with_bit_scale_list self s1 in
              (s1,
               (quantize_weight_bit_list <- get_quantize_weight_bit_list self1 ;;
                set_weights_forward self1 inputs quantize_weight_bit_list)%result)
          end
      end
  else
    (s, Raise (AssertionError "method should be TRADITION, FIX_TRAIN or SINGLE_FIX_TEST")).

(** ** Sequences of forward calls *)

(** What a caller fixes for one call: the arguments of [forward], and the
    weights and the train/eval flag of the layer at that time. *)
Record call : Type := {
  call_inputs : Tensor;
  call_method : string;
  call_input_config : option (list bit_scale);
  call_training : bool;
  call_weights : list Tensor
}.

Definition prepare (self : BaseWeightLayer) (c : call) : BaseWeightLayer :=
  {| ini := self.(ini);
     input_split_num := self.(input_split_num);
     layer_list := c.(call_weights);
     partial_func := self.(partial_func);
     training := c.(call_training);
     bit_scale_list := self.(bit_scale_list) |}.

Definition forward_call {T : Torch} (self : BaseWeightLayer) (c : call) : BaseWeightLayer :=
  let self' := prepare self c in
  with_bit_scale_list self'
    (fst (forward self' c.(call_inputs) c.(call_method) c.(call_input_config))).

Definition forward_calls {T : Torch} (self : BaseWeightLayer) (calls : list call)
  : BaseWeightLayer :=
  fold_left forward_call calls self.

(** ** An executable instance: fully-connected layers on one input row

    The input has shape [(1, n)] and the weight of a sub-operation has shape
    [(out_features, n_k)], both stored row by row.  [dim=1] of the input is
    the list itself, [dim=1] of a weight is the position in its rows,
    [F.linear] multiplies by the transposed weight, and the sample standard
    deviation is computed when it is rational. *)

Fixpoint chunks (fuel : nat) (n : nat) (t : Tensor) : list Tensor :=
  match fuel, t with
  | _, [] => []
  | O, _ => []
  | S fuel', _ => firstn n t :: chunks fuel' n (skipn n t)
  end.

Definition Qsum (t : Tensor) : Q := fold_right Qplus 0 t.

(** The rational square root of a rational square. *)
Definition Qsqrt_exact (x : Q) : option Q :=
  let r := Qred x in
  let n := Z.sqrt (Qnum r) in
  let d := Z.sqrt (Zpos (Qden r)) in
  if ((n * n =? Qnum r) && (d * d =? Zpos (Qden r)))%Z%bool
  then Some (inject_Z n / inject_Z d) else None.

(** [torch.std]: the square root of the unbiased sample variance. *)
Definition fc_std (t : Tensor) : result Q :=
  if (length t <? 2)%nat then Raise NonFinite
  else
    let n := inject_Z (Z.of_nat (length t)) in
    let mu := Qsum t / n in
    let var := Qsum (map (fun x => (x - mu) * (x - mu)) t) / (n - 1) in
    match Qsqrt_exact var with
    | Some sd => Ok sd
    | None => Raise NonFinite
    end.

(** The rows of a weight of [out_features] rows. *)
Definition weight_rows (out_features : nat) (w : Tensor) : result (list Tensor) :=
  let n := (length w / out_features)%nat in
  if ((0 <? out_features) && (0 <? n) && (length w =? n * out_features))%nat
  then Ok (chunks (length w) n w)
  else Raise RuntimeError.

(** [torch.cat(ws, dim=1)] of weights: row by row, the rows of all weights. *)
Definition fc_cat (out_features : nat) (ws : list Tensor) : result Tensor :=
  match ws with
  | [] => Raise RuntimeError
  | _ =>
      (rows <- traverse (weight_rows out_features) ws ;;
       Ok (List.concat
             (map (fun r => List.concat (map (fun w_rows => nth r w_rows []) rows))
                  (seq 0 out_features))))%result
  end.

Definition fc_torch (out_features : nat) : Torch :=
  {| torch_std := fc_std;
     torch_split t n :=
       if (0 <? n)%Z then Ok (chunks (length t) (Z.to_nat n) t)
       else Raise RuntimeError;
     torch_cat := fc_cat out_features |}.

(** [F.linear(input, weight, bias=None)]. *)
Definition F_linear (out_features : nat) (input weight : Tensor) : result Tensor :=
  (rows <- weight_rows out_features weight ;;
   if forallb (fun row => Nat.eqb (length row) (length input)) rows
   then Ok (map (fun row => Qsum (zip_with Qmult input row)) rows)
   else Raise RuntimeError)%result.

(** A fully-connected layer as [__init__] leaves it, given its weights. *)
Definition QuantizeFC (ini : layer_ini) (weights : list Tensor) (training : bool)
  : result BaseWeightLayer :=
  (cfg <- get_module_config fc ini ;;
   Ok {| ini := ini;
         input_split_num := fst cfg;
         layer_list := weights;
         partial_func := F_linear (Z.to_nat ini.(layer).(out_features));
         training := training;
         bit_scale_list := get_buffer_list ini |})%result.

(** ** A worked layer *)

Definition example_ini : layer_ini :=
  {| quantize := {| q_input := 4; q_weight := 4; q_output := 4 |};
     hardware := {| xbar_row := 2; cell_bit := 2; dac_bit := 1;
                    adc_bit := 8; point_shift := - 2 |};
     layer := {| in_channels := 0; in_features := 3; out_features := 3;
                 kernel_size := 1 |} |}.

(** The weight rows (1, 0, 0), (-1, 0, 1) and (1, 1, 0), on crossbars of
    two rows: a sub-operation of two input features and one of one. *)
Definition example_weights : list Tensor :=
  [[1; 0; - (1); 0; 1; 1]; [0; 1; 0]].

(** The layer in evaluation, after its rows were committed. *)
Definition example_layer : BaseWeightLayer :=
  {| ini := example_ini;
     input_split_num := 2;
     layer_list := example_weights;
     partial_func := F_linear 3;
     training := false;
     bit_scale_list := {| input_row := (4%Z, 3 # 7);
                          weight_row := (4%Z, 1 # 7);
                          output_row := (4%Z, 5 # 7) |} |}.

(** The same layer as [__init__] leaves it. *)
Definition fresh_layer : BaseWeightLayer :=
  with_bit_scale_list example_layer (get_buffer_list example_ini).

Definition example_inputs : Tensor := [1; 2; 3].

Definition example_weight_digits : list (list Tensor) :=
  Eval vm_compute in
    match get_quantize_weight_bit_list example_layer with
    | Ok l => map (map (map Qred)) l
    | Raise _ => []
    end.

Definition example_output : Tensor :=
  Eval vm_compute in
    match set_weights_forward (T := fc_torch 3) example_layer example_inputs
            example_weight_digits with
    | Ok o => o
    | Raise _ => []
    end.

Definition example_call (method : string) (input_config : option (list bit_scale))
    (training : bool) : call :=
  {| call_inputs := example_inputs; call_method := method;
     call_input_config := input_config; call_training := training;
     call_weights := example_weights |}.

(** Calls in every mode, and one with the method name of the
    specification, which the code does not know. *)
Definition example_calls : list call :=
  [ example_call "FIX_TRAIN" None true;
    example_call "FIX_TRAIN" None true;
    example_call "FIX_TRAIN" None false;
    example_call "SINGLE_FIX_TEST" (Some [(6%Z, 3 # 31)]) false;
    example_call "TRADITION" None false;
    example_call "FULL_PRECISION" None true ].

(** ** Further worked values *)

Definition weight_cfg : quantize_cfg :=
  {| mode := "weight"; phase := None; bit := 4 |}.

Definition test_cfg : quantize_cfg :=
  {| mode := "activation"; phase := Some "test"; bit := 4 |}.

Definition example_tensor : Tensor := [1; 1 # 3; - (5)].

(** [example_tensor] through the quantizer in mode weight, and in phase test
    on the committed row (4, 2/7). *)
Definition example_quantized_weight : Tensor * bit_scale :=
  Eval vm_compute in
    match Quantize (T := fc_torch 3) example_tensor weight_cfg (4%Z, - (1)) with
    | Ok p => p
    | Raise _ => ([], (0%Z, 0))
    end.

Definition example_quantized_test : Tensor * bit_scale :=
  Eval vm_compute in
    match Quantize (T := fc_torch 3) example_tensor test_cfg (4%Z, 2 # 7) with
    | Ok p => p
    | Raise _ => ([], (0%Z, 0))
    end.

(** A layer object with other weights. *)
Definition with_layer_list (self : BaseWeightLayer) (ws : list Tensor)
  : BaseWeightLayer :=
  {| ini := self.(ini);
     input_split_num := self.(input_split_num);
     layer_list := ws;
     partial_func := self.(partial_func);
     training := self.(training);
     bit_scale_list := self.(bit_scale_list) |}.

(** The scalars of the worked layer, and the readout of the raw partial sums
    3, -40 and 1/2 at its first digit pair. *)
Definition example_adc_scales : adc_scales :=
  Eval vm_compute in
    match get_adc_scales example_layer with
    | Ok sc => sc
    | Raise _ => {| weight_cycle := 0; input_cycle := 0; output_scale := 0;
                    mul_scale := 0; transfer_scale := 0; output_thres := 0 |}
    end.

Definition example_raw : Tensor := [3; - (40); 1 # 2].

Definition example_readout : Tensor :=
  Eval vm_compute in
    match adc_readout example_layer.(ini).(hardware) example_adc_scales 0 0 example_raw with
    | Ok t => t
    | Raise _ => []
    end.

(** The worked layer as [__init__] leaves it, in training, and the value of
    its first FIX_TRAIN pass. *)
Definition training_layer : BaseWeightLayer :=
  prepare fresh_layer (example_call "FIX_TRAIN" None true).

Definition example_train_output : Tensor :=
  Eval vm_compute in
    match snd (forward (T := fc_torch 3) training_layer example_inputs "FIX_TRAIN" None) with
    | Ok o => o
    | Raise _ => []
    end.

(** * Properties *)

Local Close Scope Q_scope.

(** ** The result monad *)

Lemma rbind_Ok_inv {A B} (m : result A) (f : A -> result B) (b : B) :
  rbind m f = Ok b -> exists a, m = Ok a /\ f a = Ok b.
Proof. destruct m as [a|e]; simpl; [eauto|discriminate]. Qed.

Ltac inv_bind_fresh H :=
  let a := fresh "a" in
  let Ha := fresh "Ha" in
  apply rbind_Ok_inv in H; destruct H as (a & Ha & H).

Tactic Notation "inv_bind" hyp(H) := inv_bind_fresh H.

Tactic Notation "inv_bind" hyp(H) "as" ident(a) ident(Ha) :=
  apply rbind_Ok_inv in H; destruct H as (a & Ha & H).

(** ** Partition planner *)

Lemma list_mul_singleton {A} (a : A) (n : Z) :
  list_mul [a] n = repeat a (Z.to_nat n).
Proof.
  unfold list_mul. induction (Z.to_nat n) as [|k IH]; simpl; [reflexivity|].
  now rewrite IH.
Qed.

Lemma sum_Z_app (l1 l2 : list Z) : sum_Z (l1 ++ l2) = sum_Z l1 + sum_Z l2.
Proof. unfold sum_Z. induction l1; simpl; lia. Qed.

Lemma sum_Z_repeat (a : Z) (n : nat) : sum_Z (repeat a n) = a * Z.of_nat n.
Proof. unfold sum_Z. induction n; simpl repeat; simpl fold_right; lia. Qed.

Lemma filter_repeat_false {A} (f : A -> bool) (a : A) (n : nat) :
  f a = false -> filter f (repeat a n) = [].
Proof. intros Hf. induction n; simpl; [reflexivity|]. now rewrite Hf. Qed.

Lemma split_by_num_ok (num base : Z) :
  0 < num -> 0 < base ->
  split_by_num num base
  = Ok (repeat base (Z.to_nat (num / base)) ++ remainder_chunk num base).
Proof.
  intros Hn Hb. unfold split_by_num, remainder_chunk.
  destruct (Z.ltb_spec 0 num); [|lia].
  destruct (Z.ltb_spec 0 base); [|lia].
  rewrite !list_mul_singleton.
  destruct (Z.ltb_spec 0 (num mod base)); reflexivity.
Qed.

(** C5: for a positive dimension [D] and a positive row capacity the plan
    is [floor(D / rows_per_partition)] full chunks followed by the remainder
    chunk when the remainder is not zero; the chunks sum to [D], each lies
    in [(0, rows_per_partition]], and at most one is smaller than the
    capacity.  A dimension or a capacity that is not positive fails an
    assertion.  Dimension 20 on 8 rows gives [8; 8; 4]. *)
Theorem split_by_num_plan (D rows_per_partition : Z) :
  (0 < D -> 0 < rows_per_partition ->
   exists chunks,
     split_by_num D rows_per_partition = Ok chunks
     /\ chunks = repeat rows_per_partition (Z.to_nat (D / rows_per_partition))
                 ++ remainder_chunk D rows_per_partition
     /\ sum_Z chunks = D
     /\ Forall (fun c => 0 < c <= rows_per_partition) chunks
     /\ (length (undersized rows_per_partition chunks) <= 1)%nat)
  /\ (D <= 0 \/ rows_per_partition <= 0 ->
      exists msg, split_by_num D rows_per_partition = Raise (AssertionError msg))
  /\ split_by_num 20 8 = Ok [8; 8; 4].
Proof.
  split; [|split].
  - intros HD Hr. eexists. split; [apply split_by_num_ok; assumption|].
    split; [reflexivity|].
    pose proof (Z.mod_pos_bound D rows_per_partition Hr) as Hm.
    pose proof (Z.div_mod D rows_per_partition ltac:(lia)) as Hdm.
    assert (Hq : 0 <= D / rows_per_partition) by (apply Z.div_pos; lia).
    unfold remainder_chunk.
    split; [|split].
    + rewrite sum_Z_app, sum_Z_repeat, Z2Nat.id by lia.
      destruct (Z.ltb_spec 0 (D mod rows_per_partition)); unfold sum_Z; simpl; lia.
    + apply Forall_app. split.
      * apply Forall_forall. intros c Hc. apply repeat_spec in Hc. lia.
      * destruct (Z.ltb_spec 0 (D mod rows_per_partition)); constructor; [lia|constructor].
    + unfold undersized. rewrite filter_app, filter_repeat_false by (apply Z.ltb_irrefl).
      destruct (Z.ltb_spec 0 (D mod rows_per_partition)); simpl; [|lia].
      destruct (D mod rows_per_partition <? rows_per_partition); simpl; lia.
  - intros H. unfold split_by_num.
    destruct (Z.ltb_spec 0 D); [|eexists; reflexivity].
    destruct (Z.ltb_spec 0 rows_per_partition); [lia|eexists; reflexivity].
  - reflexivity.
Qed.

(** The plan of dimension 20 on 8 rows. *)
Lemma split_by_num_plan_witness :
  exists chunks,
    split_by_num 20 8 = Ok chunks
    /\ chunks = repeat 8 (Z.to_nat (20 / 8)) ++ remainder_chunk 20 8
    /\ sum_Z chunks = 20
    /\ Forall (fun c => 0 < c <= 8) chunks
    /\ (length (undersized 8 chunks) <= 1)%nat.
Proof. apply (proj1 (split_by_num_plan 20 8)); lia. Defined.

(** ** Forward modes and the quantization state *)

Section Forward.
Context {T : Torch}.

Lemma quantize_writes_bit (inputs : Tensor) (bit : Z) (scale : Q)
    (out : Tensor) (row : bit_scale) :
  QuantizeFunction.quantize inputs bit scale = Ok (out, row) -> fst row = bit.
Proof.
  unfold QuantizeFunction.quantize. intros H.
  inv_bind H. inv_bind H. now inversion H.
Qed.

Lemma Quantize_writes_bit (inputs : Tensor) (cfg : quantize_cfg)
    (last : bit_scale) (out : Tensor) (row : bit_scale) :
  Quantize inputs cfg last = Ok (out, row) -> fst row = cfg.(bit).
Proof.
  unfold Quantize, QuantizeFunction.forward. intros H.
  inv_bind H. eapply quantize_writes_bit; eassumption.
Qed.

(** C10: a forward call in mode TRADITION leaves all three rows of the
    buffer as they were, whatever the call returns or raises; its value is
    the sum of the sub-operations applied to the pieces of the input. *)
Theorem forward_TRADITION_frame (self : BaseWeightLayer) (inputs : Tensor)
    (input_config : option (list bit_scale)) :
  fst (forward self inputs "TRADITION" input_config) = self.(bit_scale_list)
  /\ snd (forward self inputs "TRADITION" input_config)
     = (input_list <- torch_split inputs self.(input_split_num) ;;
        output_list <- traverse (fun lv => self.(partial_func) (snd lv) (fst lv))
                                (combine self.(layer_list) input_list) ;;
        sum_stack output_list)%result.
Proof. unfold forward. simpl. split; reflexivity. Qed.

(** C7: mode SINGLE_FIX_TEST fails at once, the buffer untouched, when the
    layer is training and when no input configuration is supplied; a method
    other than the three known ones fails at once as well. *)
Theorem forward_fails_immediately (self : BaseWeightLayer) (inputs : Tensor)
    (method : string) (input_config : option (list bit_scale)) :
  (self.(training) = true ->
   forward self inputs "SINGLE_FIX_TEST" input_config
   = (self.(bit_scale_list),
      Raise (AssertionError "method is SINGLE_FIX_TEST, but now is training")))
  /\ (self.(training) = false ->
      forward self inputs "SINGLE_FIX_TEST" None
      = (self.(bit_scale_list),
         Raise (AssertionError "method is SINGLE_FIX_TEST, but input_config is None")))
  /\ (exists msg, forward self inputs "SINGLE_FIX_TEST" None
                  = (self.(bit_scale_list), Raise (AssertionError msg)))
  /\ (method <> "TRADITION" -> method <> "FIX_TRAIN" -> method <> "SINGLE_FIX_TEST" ->
      forward self inputs method input_config
      = (self.(bit_scale_list),
         Raise (AssertionError "method should be TRADITION, FIX_TRAIN or SINGLE_FIX_TEST"))).
Proof.
  repeat split.
  - intros Ht. unfold forward. simpl. now rewrite Ht.
  - intros Ht. unfold forward. simpl. now rewrite Ht.
  - unfold forward. simpl. destruct (training self); eexists; reflexivity.
  - intros H1 H2 H3. unfold forward.
    apply String.eqb_neq in H1, H2, H3. now rewrite H1, H2, H3.
Qed.

(** C8: a SINGLE_FIX_TEST call on a layer in evaluation writes the supplied
    pair into the input row and leaves the weight row and the output row as
    they were, whether the call returns or raises later. *)
Theorem forward_SINGLE_FIX_TEST_frame (self : BaseWeightLayer) (inputs : Tensor)
    (input_bit_scale : bit_scale) (others : list bit_scale) :
  self.(training) = false ->
  let s' := fst (forward self inputs "SINGLE_FIX_TEST"
                         (Some (input_bit_scale :: others))) in
  s'.(input_row) = input_bit_scale
  /\ s'.(weight_row) = self.(bit_scale_list).(weight_row)
  /\ s'.(output_row) = self.(bit_scale_list).(output_row).
Proof.
  intros Ht. unfold forward. simpl. rewrite Ht. simpl. repeat split.
Qed.

(** Every forward call keeps the bit widths of the weight and output rows. *)
Lemma forward_keeps_bit_widths (self : BaseWeightLayer) (inputs : Tensor)
    (method : string) (input_config : option (list bit_scale)) :
  let s' := fst (forward self inputs method input_config) in
  fst s'.(weight_row) = fst self.(bit_scale_list).(weight_row)
  /\ fst s'.(output_row) = fst self.(bit_scale_list).(output_row).
Proof.
  unfold forward.
  destruct (String.eqb method "TRADITION"); [simpl; auto|].
  destruct (String.eqb method "FIX_TRAIN").
  - destruct (rbind (torch_cat (layer_list self)) _) as [[qw row1]|e] eqn:E1;
      [|simpl; auto].
    inv_bind E1. apply Quantize_writes_bit in E1. simpl in E1.
    destruct (rbind (partial_func self inputs qw) _) as [[qo row2]|e] eqn:E2;
      [|simpl; auto].
    inv_bind E2. apply Quantize_writes_bit in E2. simpl in E2.
    simpl. auto.
  - destruct (String.eqb method "SINGLE_FIX_TEST"); [|simpl; auto].
    destruct (training self); [simpl; auto|].
    destruct input_config as [cfg|]; [|simpl; auto].
    destruct (index cfg 0); simpl; auto.
Qed.

Lemma forward_call_ini (self : BaseWeightLayer) (c : call) :
  (forward_call self c).(ini) = self.(ini).
Proof. reflexivity. Qed.

Lemma forward_call_keeps_bit_widths (self : BaseWeightLayer) (c : call) :
  let s' := (forward_call self c).(bit_scale_list) in
  fst s'.(weight_row) = fst self.(bit_scale_list).(weight_row)
  /\ fst s'.(output_row) = fst self.(bit_scale_list).(output_row).
Proof.
  unfold forward_call. cbn [bit_scale_list with_bit_scale_list].
  apply (forward_keeps_bit_widths (prepare self c)).
Qed.

(** C9: over every sequence of forward calls, in any modes and with any
    weights and train/eval flags, the bit widths of the weight row and of the
    output row stay those of the configuration; the quantizer writes back
    the bit width of its configuration, which [forward] reads from the row. *)
Theorem bit_widths_invariant (self : BaseWeightLayer) (calls : list call) :
  self.(bit_scale_list) = get_buffer_list self.(ini) ->
  let s' := (forward_calls self calls).(bit_scale_list) in
  fst s'.(weight_row) = self.(ini).(quantize).(q_weight)
  /\ fst s'.(output_row) = self.(ini).(quantize).(q_output)
  /\ (forall inputs cfg last out row,
         Quantize inputs cfg last = Ok (out, row) -> fst row = cfg.(bit)).
Proof.
  intros Hinit. cbv zeta.
  assert (Hgen : forall calls self,
             fst (forward_calls self calls).(bit_scale_list).(weight_row)
             = fst self.(bit_scale_list).(weight_row)
             /\ fst (forward_calls self calls).(bit_scale_list).(output_row)
                = fst self.(bit_scale_list).(output_row)).
  { clear. induction calls as [|c calls IH]; intros self; [split; reflexivity|].
    unfold forward_calls in *. simpl fold_left.
    destruct (IH (forward_call self c)) as [Hw Ho].
    destruct (forward_call_keeps_bit_widths self c) as [Hw' Ho'].
    split; congruence. }
  destruct (Hgen calls self) as [Hw Ho]. rewrite Hinit in Hw, Ho.
  split; [exact Hw|]. split; [exact Ho|].
  intros inputs cfg last out row. apply Quantize_writes_bit.
Qed.

End Forward.

(** The worked layer switched to training, called without an input
    configuration, and called with the method name of the specification. *)
Lemma forward_fails_immediately_witness :
  forward (T := fc_torch 3) (prepare example_layer
             (example_call "SINGLE_FIX_TEST" (Some [(4, (3 # 7)%Q)]) true))
          example_inputs "SINGLE_FIX_TEST" (Some [(4, (3 # 7)%Q)])
  = (example_layer.(bit_scale_list),
     Raise (AssertionError "method is SINGLE_FIX_TEST, but now is training"))
  /\ forward (T := fc_torch 3) example_layer example_inputs "SINGLE_FIX_TEST" None
     = (example_layer.(bit_scale_list),
        Raise (AssertionError "method is SINGLE_FIX_TEST, but input_config is None"))
  /\ forward (T := fc_torch 3) example_layer example_inputs "FULL_PRECISION" None
     = (example_layer.(bit_scale_list),
        Raise (AssertionError "method should be TRADITION, FIX_TRAIN or SINGLE_FIX_TEST")).
Proof.
  split; [|split].
  - apply (forward_fails_immediately (T := fc_torch 3)
             (prepare example_layer
                (example_call "SINGLE_FIX_TEST" (Some [(4, (3 # 7)%Q)]) true))
             example_inputs "SINGLE_FIX_TEST" (Some [(4, (3 # 7)%Q)])).
    reflexivity.
  - apply (forward_fails_immediately (T := fc_torch 3) example_layer
             example_inputs "SINGLE_FIX_TEST" None).
    reflexivity.
  - apply (forward_fails_immediately (T := fc_torch 3) example_layer
             example_inputs "FULL_PRECISION" None); discriminate.
Defined.

(** The worked layer given the input row (6, 3/31). *)
Lemma forward_SINGLE_FIX_TEST_frame_witness :
  let s' := fst (forward (T := fc_torch 3) example_layer example_inputs
                   "SINGLE_FIX_TEST" (Some [(6, (3 # 31)%Q)])) in
  s'.(input_row) = (6, (3 # 31)%Q)
  /\ s'.(weight_row) = example_layer.(bit_scale_list).(weight_row)
  /\ s'.(output_row) = example_layer.(bit_scale_list).(output_row).
Proof.
  apply (forward_SINGLE_FIX_TEST_frame (T := fc_torch 3) example_layer
           example_inputs (6, (3 # 31)%Q) []).
  reflexivity.
Defined.

(** The fresh layer after the six calls of [example_calls]. *)
Lemma bit_widths_invariant_witness :
  let s' := (forward_calls (T := fc_torch 3) fresh_layer example_calls).(bit_scale_list) in
  fst s'.(weight_row) = fresh_layer.(ini).(quantize).(q_weight)
  /\ fst s'.(output_row) = fresh_layer.(ini).(quantize).(q_output)
  /\ (forall inputs cfg last out row,
         Quantize (T := fc_torch 3) inputs cfg last = Ok (out, row) ->
         fst row = cfg.(bit)).
Proof.
  apply (bit_widths_invariant (T := fc_torch 3) fresh_layer example_calls).
  reflexivity.
Defined.

Local Open Scope Q_scope.

(** ** Rounding and clamping *)

#[export] Instance round_half_even_Proper : Proper (Qeq ==> eq) round_half_even.
Proof.
  intros x y E. unfold round_half_even. cbv zeta.
  rewrite (Qfloor_comp x y E).
  assert (Ec : Qcompare (x - inject_Z (Qfloor y)) (1 # 2)
               = Qcompare (y - inject_Z (Qfloor y)) (1 # 2)).
  { apply Qcompare_comp; [rewrite E|]; reflexivity. }
  now rewrite Ec.
Qed.

Lemma round_half_even_Z (z : Z) : round_half_even (inject_Z z) = z.
Proof.
  unfold round_half_even. cbv zeta. rewrite Qfloor_Z.
  assert (E : Qcompare (inject_Z z - inject_Z z) (1 # 2) = Lt).
  { apply Qlt_alt. setoid_replace (inject_Z z - inject_Z z) with 0 by ring.
    reflexivity. }
  now rewrite E.
Qed.

Lemma clamp_cases (lo hi x : Q) :
  (hi < lo /\ clamp lo hi x == hi)
  \/ (lo <= hi /\ x <= lo /\ clamp lo hi x == lo)
  \/ (lo <= hi /\ lo <= x <= hi /\ clamp lo hi x == x)
  \/ (lo <= hi /\ hi <= x /\ clamp lo hi x == hi).
Proof.
  unfold clamp.
  destruct (Q.max_spec x lo) as [[H1 E1]|[H1 E1]];
    destruct (Q.min_spec (Qmax x lo) hi) as [[H2 E2]|[H2 E2]];
    rewrite E2; rewrite E1 in *;
    destruct (Qlt_le_dec hi lo); lra.
Qed.

#[export] Instance clamp_Proper : Proper (Qeq ==> Qeq ==> Qeq ==> Qeq) clamp.
Proof.
  intros lo lo' El hi hi' Eh x x' Ex.
  destruct (clamp_cases lo hi x) as [[H E]|[[H [H' E]]|[[H [H' E]]|[H [H' E]]]]];
    destruct (clamp_cases lo' hi' x') as [[G F]|[[G [G' F]]|[[G [G' F]]|[G [G' F]]]]];
    rewrite E, F; lra.
Qed.

Lemma clamp_inject_Z (a b x : Z) :
  clamp (inject_Z a) (inject_Z b) (inject_Z x) == inject_Z (Z.min (Z.max x a) b).
Proof.
  destruct (clamp_cases (inject_Z a) (inject_Z b) (inject_Z x))
    as [[H E]|[[H [H' E]]|[[H [H' E]]|[H [H' E]]]]]; rewrite E;
    rewrite <- ?Zle_Qle, <- ?Zlt_Qlt in *; apply inject_Z_injective; lia.
Qed.

(** ** Thresholds *)

Lemma two_power_Z (n : Z) : (0 <= n)%Z -> 2 ^ n == inject_Z (2 ^ n).
Proof. intros Hn. now rewrite Zpower_Qpower. Qed.

Lemma _get_thres_Z (bit_width : Z) :
  (1 <= bit_width)%Z ->
  _get_thres bit_width == inject_Z (2 ^ (bit_width - 1) - 1).
Proof.
  intros Hb. unfold _get_thres. rewrite two_power_Z by lia.
  unfold Zminus. rewrite inject_Z_plus. reflexivity.
Qed.

Lemma two_power_neg_lt_1 (n : Z) : (n < 0)%Z -> 0 < 2 ^ n < 1.
Proof.
  intros Hn. split; [apply Qpower_0_lt; reflexivity|].
  replace n with (- (- n))%Z by lia. rewrite Qpower_opp.
  assert (H1 : 1 < 2 ^ (- n)) by (apply Qpower_1_lt; [reflexivity|lia]).
  assert (H0 : 0 < 2 ^ (- n)) by lra.
  apply Qlt_shift_inv_r; [assumption|lra].
Qed.

(** The threshold is a positive integer from two bits on, zero for one bit,
    and negative below. *)
Lemma _get_thres_cases (bit_width : Z) :
  ((2 <= bit_width)%Z /\ exists t : Z, (1 <= t)%Z /\ _get_thres bit_width == inject_Z t)
  \/ (bit_width = 1%Z /\ _get_thres bit_width == 0)
  \/ ((bit_width <= 0)%Z /\ _get_thres bit_width < 0).
Proof.
  destruct (Z_le_gt_dec 2 bit_width) as [H2|H2]; [left|right].
  - split; [assumption|]. exists (2 ^ (bit_width - 1) - 1)%Z. split.
    + assert (2 ^ 1 <= 2 ^ (bit_width - 1))%Z by (apply Z.pow_le_mono_r; lia).
      change (2 ^ 1)%Z with 2%Z in *. lia.
    + apply _get_thres_Z. lia.
  - destruct (Z.eq_dec bit_width 1) as [->|H1]; [left; split; reflexivity|right].
    split; [lia|]. unfold _get_thres.
    pose proof (two_power_neg_lt_1 (bit_width - 1) ltac:(lia)). lra.
Qed.

(** ** Rounding to the nearest integer *)

Lemma Qfloor_unique (x : Q) (n : Z) :
  inject_Z n <= x -> x < inject_Z n + 1 -> Qfloor x = n.
Proof.
  intros Hle Hlt. apply Z.le_antisymm.
  - pose proof (Qfloor_le x) as Hf.
    assert (H : inject_Z (Qfloor x) < inject_Z (n + 1)).
    { rewrite inject_Z_plus. change (inject_Z 1) with 1. lra. }
    rewrite <- Zlt_Qlt in H. lia.
  - rewrite <- (Qfloor_Z n). now apply Qfloor_resp_le.
Qed.

Lemma round_half_even_error (x : Q) :
  - (1 # 2) <= inject_Z (round_half_even x) - x <= 1 # 2.
Proof.
  unfold round_half_even. cbv zeta.
  pose proof (Qfloor_le x) as Hlo. pose proof (Qlt_floor x) as Hhi.
  rewrite inject_Z_plus in Hhi. change (inject_Z 1) with 1 in Hhi.
  destruct (Qcompare (x - inject_Z (Qfloor x)) (1 # 2)) eqn:E.
  - apply Qeq_alt in E.
    destruct (Z.even (Qfloor x)); rewrite ?inject_Z_plus; change (inject_Z 1) with 1; lra.
  - apply Qlt_alt in E. lra.
  - apply Qgt_alt in E. rewrite inject_Z_plus. change (inject_Z 1) with 1. lra.
Qed.

Lemma round_half_even_mono (x y : Q) :
  x <= y -> (round_half_even x <= round_half_even y)%Z.
Proof.
  intros Hxy. destruct (Z_le_gt_dec (round_half_even x) (round_half_even y)) as [|Hgt];
    [assumption|exfalso].
  pose proof (round_half_even_error x) as Hx.
  pose proof (round_half_even_error y) as Hy.
  assert (H1 : inject_Z (round_half_even y) + 1 <= inject_Z (round_half_even x)).
  { change 1 with (inject_Z 1). rewrite <- inject_Z_plus, <- Zle_Qle. lia. }
  assert (E : x == y) by lra.
  rewrite E in Hgt. lia.
Qed.

Lemma round_half_even_opp (x : Q) : round_half_even (- x) = (- round_half_even x)%Z.
Proof.
  pose proof (Qfloor_le x) as Hlo. pose proof (Qlt_floor x) as Hhi.
  rewrite inject_Z_plus in Hhi. change (inject_Z 1) with 1 in Hhi.
  destruct (Qeq_dec x (inject_Z (Qfloor x))) as [Eint|Hfrac].
  - set (f := Qfloor x) in *.
    assert (E1 : round_half_even (- x) = round_half_even (inject_Z (- f))).
    { apply round_half_even_Proper. rewrite inject_Z_opp. now apply Qopp_comp. }
    assert (E2 : round_half_even x = round_half_even (inject_Z f)).
    { now apply round_half_even_Proper. }
    now rewrite E1, E2, !round_half_even_Z.
  - assert (Hf : Qfloor (- x) = (- Qfloor x - 1)%Z).
    { apply Qfloor_unique; unfold Zminus;
        rewrite inject_Z_plus, !inject_Z_opp; change (inject_Z 1) with 1; lra. }
    unfold round_half_even. cbv zeta. rewrite Hf.
    assert (Ed : - x - inject_Z (- Qfloor x - 1) == 1 - (x - inject_Z (Qfloor x))).
    { unfold Zminus. rewrite inject_Z_plus, !inject_Z_opp. change (inject_Z 1) with 1.
      ring. }
    rewrite (Qcompare_comp _ _ Ed (1 # 2) (1 # 2) (Qeq_refl _)).
    set (d := x - inject_Z (Qfloor x)) in *.
    destruct (Qcompare d (1 # 2)) eqn:E.
    + apply Qeq_alt in E.
      assert (E' : Qcompare (1 - d) (1 # 2) = Eq) by (apply (proj1 (Qeq_alt _ _)); lra).
      rewrite E'.
      replace (- Qfloor x - 1)%Z with (- (Qfloor x + 1))%Z by lia.
      rewrite Z.even_opp, Z.even_add. simpl (Z.even 1).
      destruct (Z.even (Qfloor x)).
      * cbn. lia.
      * cbn. lia.
    + apply Qlt_alt in E.
      assert (E' : Qcompare (1 - d) (1 # 2) = Gt) by (apply (proj1 (Qgt_alt _ _)); lra).
      rewrite E'. lia.
    + apply Qgt_alt in E.
      assert (E' : Qcompare (1 - d) (1 # 2) = Lt) by (apply (proj1 (Qlt_alt _ _)); lra).
      rewrite E'. lia.
Qed.

Lemma clamp_opp (t y : Q) : 0 <= t -> clamp (- t) t (- y) == - clamp (- t) t y.
Proof.
  intros Ht.
  destruct (clamp_cases (- t) t y) as [[H E]|[[H [H' E]]|[[H [H' E]]|[H [H' E]]]]];
    destruct (clamp_cases (- t) t (- y)) as [[G F]|[[G [G' F]]|[[G [G' F]]|[G [G' F]]]]];
    rewrite E, F; lra.
Qed.

Lemma clamp_mono (lo hi x y : Q) : x <= y -> clamp lo hi x <= clamp lo hi y.
Proof.
  intros Hxy.
  destruct (clamp_cases lo hi x) as [[H E]|[[H [H' E]]|[[H [H' E]]|[H [H' E]]]]];
    destruct (clamp_cases lo hi y) as [[G F]|[[G [G' F]]|[[G [G' F]]|[G [G' F]]]]];
    rewrite E, F; lra.
Qed.

(** The threshold of two bits or more, as an integer. *)
Lemma _get_thres_pos (bit : Z) :
  (2 <= bit)%Z ->
  exists t : Z, (1 <= t)%Z /\ t = (2 ^ (bit - 1) - 1)%Z /\ _get_thres bit == inject_Z t.
Proof.
  intros Hb. exists (2 ^ (bit - 1) - 1)%Z. split; [|split; [reflexivity|]].
  - assert (2 ^ 1 <= 2 ^ (bit - 1))%Z by (apply Z.pow_le_mono_r; lia).
    change (2 ^ 1)%Z with 2%Z in *. lia.
  - apply _get_thres_Z. lia.
Qed.

(** One entry of the quantizer's output is its clamped level times the
    step. *)
Lemma quantize_entry_level (bit : Z) (scale x : Q) :
  ~ _get_thres bit == 0 -> ~ scale == 0 ->
  quantize_entry bit scale x
  == quantize_level x (scale / _get_thres bit) bit * (scale / _get_thres bit).
Proof.
  intros Ht Hs. unfold quantize_entry, quantize_level. cbv zeta. field. split; assumption.
Qed.

Lemma Forall2_map_r {A B} (P : A -> B -> Prop) (f : A -> B) (l : list A) :
  (forall a, In a l -> P a (f a)) -> Forall2 P l (map f l).
Proof.
  induction l as [|a l IH]; intros H; simpl; constructor.
  - apply H. now left.
  - apply IH. intros b Hb. apply H. now right.
Qed.


(** ** Quantizer *)

Lemma tensor_eq_map (f g : Q -> Q) (t : Tensor) :
  (forall x, f x == g x) -> tensor_eq (map f t) (map g t).
Proof.
  intros Hfg. unfold tensor_eq. induction t as [|x t IH]; simpl; constructor; auto.
Qed.

Lemma tensor_eq_map_id (f : Q -> Q) (t : Tensor) :
  Forall (fun x => f x == x) t -> tensor_eq (map f t) t.
Proof.
  unfold tensor_eq. induction 1; simpl; constructor; auto.
Qed.

Lemma quantize_Ok (inputs : Tensor) (bit : Z) (scale : Q) :
  ~ _get_thres bit == 0 -> ~ scale == 0 ->
  QuantizeFunction.quantize inputs bit scale
  = Ok (map (quantize_entry bit scale) inputs, (bit, scale / _get_thres bit)).
Proof.
  intros Ht Hs. unfold QuantizeFunction.quantize. cbv zeta.
  destruct (Qeq_bool (_get_thres bit) 0) eqn:E1;
    [apply Qeq_bool_iff in E1; contradiction|].
  destruct (Qeq_bool scale 0) eqn:E2;
    [apply Qeq_bool_iff in E2; contradiction|].
  simpl. unfold tensor_div, torch_clamp, torch_round. rewrite !map_map.
  reflexivity.
Qed.

Lemma quantize_Ok_inv (inputs : Tensor) (bit : Z) (scale : Q) (r : Tensor * bit_scale) :
  QuantizeFunction.quantize inputs bit scale = Ok r ->
  ~ _get_thres bit == 0 /\ ~ scale == 0.
Proof.
  unfold QuantizeFunction.quantize. cbv zeta. intros H.
  destruct (Qeq_bool (_get_thres bit) 0) eqn:E1; [discriminate|].
  destruct (Qeq_bool scale 0) eqn:E2; [discriminate|].
  split; intros E; apply Qeq_bool_iff in E; congruence.
Qed.




Lemma quantize_entry_idempotent (bit : Z) (scale x : Q) :
  ~ _get_thres bit == 0 -> ~ scale == 0 ->
  quantize_entry bit scale (quantize_entry bit scale x) == quantize_entry bit scale x.
Proof.
  intros Ht Hs. unfold quantize_entry.
  set (thres := _get_thres bit) in *.
  set (r := round_half_even (x / (scale / thres))).
  destruct (_get_thres_cases bit) as [[_ [t [Ht1 E]]]|[[_ E]|[_ Hneg]]];
    fold thres in E || fold thres in Hneg.
  - (* integer threshold: the clamped level is an integer within range *)
    assert (Ec : clamp (- thres) thres (inject_Z r)
                 == inject_Z (Z.min (Z.max r (- t)) t)).
    { rewrite E, <- inject_Z_opp. apply clamp_inject_Z. }
    set (c := Z.min (Z.max r (- t)) t) in *.
    assert (Er : clamp (- thres) thres (inject_Z r) / (thres / scale) / (scale / thres)
                 == inject_Z c).
    { rewrite Ec. field. split; assumption. }
    rewrite Er, round_half_even_Z.
    apply Qmult_comp; [|reflexivity].
    rewrite Ec, E, <- inject_Z_opp, clamp_inject_Z.
    apply inject_Z_injective. unfold c. lia.
  - contradiction.
  - (* negative threshold: the clamp returns its upper bound *)
    assert (Hc : forall y, clamp (- thres) thres y == thres).
    { intros y. destruct (clamp_cases (- thres) thres y)
        as [[H E]|[[H _]|[[H _]|[H _]]]]; [exact E|lra..]. }
    now rewrite !Hc.
Qed.

(** C6: quantizing the output of the quantizer again, with the same bit
    width and the same scale, returns the same array and writes the same
    row. *)
Theorem quantize_idempotent (inputs : Tensor) (bit_width : Z) (scale : Q)
    (output : Tensor) (row : bit_scale) :
  QuantizeFunction.quantize inputs bit_width scale = Ok (output, row) ->
  exists output',
    QuantizeFunction.quantize output bit_width scale = Ok (output', row)
    /\ tensor_eq output' output.
Proof.
  intros H. destruct (quantize_Ok_inv _ _ _ _ H) as [Ht Hs].
  rewrite (quantize_Ok inputs _ _ Ht Hs) in H. inversion H; subst output row; clear H.
  eexists. split; [apply quantize_Ok; assumption|].
  apply tensor_eq_map_id. apply Forall_forall. intros y Hy.
  apply in_map_iff in Hy. destruct Hy as (x & <- & _).
  apply quantize_entry_idempotent; assumption.
Qed.

(** The output of the run above, quantized again. *)
Lemma quantize_idempotent_witness :
  exists output',
    QuantizeFunction.quantize [8 / 7; 2 / 7; - (14) / 7] 4 2
    = Ok (output', (4%Z, 2 / _get_thres 4))
    /\ tensor_eq output' [8 / 7; 2 / 7; - (14) / 7].
Proof.
  apply (quantize_idempotent [1; 1 # 3; - (5)] 4 2).
  vm_compute. reflexivity.
Defined.

(** ** The quantizer applied twice by [forward] *)

Lemma quantize_entry_scale_eq (bit : Z) (scale scale' x : Q) :
  scale == scale' -> quantize_entry bit scale x == quantize_entry bit scale' x.
Proof.
  intros E. unfold quantize_entry.
  assert (Er : round_half_even (x / (scale / _get_thres bit))
               = round_half_even (x / (scale' / _get_thres bit)))
    by (now rewrite E).
  now rewrite Er, E.
Qed.

Lemma quantize_entry_abs_le (bit : Z) (scale x : Q) :
  ~ _get_thres bit == 0 -> 0 < scale ->
  Qabs (quantize_entry bit scale x) <= scale.
Proof.
  intros Ht Hs. unfold quantize_entry.
  set (t := _get_thres bit) in *.
  set (y := inject_Z _).
  apply Qabs_Qle_condition.
  destruct (clamp_cases (- t) t y) as [[H E]|[[H [H' E]]|[[H [H' E]]|[H [H' E]]]]];
    rewrite E.
  - setoid_replace (t / (t / scale)) with scale by (field; split; lra). lra.
  - setoid_replace (- t / (t / scale)) with (- scale) by (field; split; lra). lra.
  - assert (Ht0 : 0 < t) by lra.
    setoid_replace (y / (t / scale)) with (y * scale / t) by (field; split; lra).
    split.
    + apply Qle_shift_div_l; [assumption|]. nra.
    + apply Qle_shift_div_r; [assumption|]. nra.
  - setoid_replace (t / (t / scale)) with scale by (field; split; lra). lra.
Qed.

(** The entry of largest magnitude is mapped to the scale itself, up to
    its sign. *)
Lemma quantize_entry_extreme (bit : Z) (scale x : Q) :
  ~ _get_thres bit == 0 -> 0 < scale -> Qabs x == scale ->
  Qabs (quantize_entry bit scale x) == scale.
Proof.
  intros Ht Hs Hx. unfold quantize_entry.
  destruct (_get_thres_cases bit) as [[_ [t [Ht1 E]]]|[[_ E]|[_ Hneg]]].
  - set (th := _get_thres bit) in *.
    assert (Hth : 0 < th) by (rewrite E; unfold Qlt; simpl; lia).
    assert (Hq : x / (scale / th) == inject_Z t \/ x / (scale / th) == inject_Z (- t)).
    { revert Hx. apply Qabs_case; intros Hsg Hx; [left|right].
      - rewrite Hx, <- E. field. split; lra.
      - rewrite inject_Z_opp, <- E.
        setoid_replace x with (- scale) by lra. field. split; lra. }
    destruct Hq as [Hq|Hq]; rewrite Hq, round_half_even_Z, E, <- inject_Z_opp,
      clamp_inject_Z.
    + replace (Z.min (Z.max t (- t)) t) with t by lia.
      rewrite <- E. setoid_replace (th / (th / scale)) with scale by (field; split; lra).
      apply Qabs_pos; lra.
    + replace (Z.min (Z.max (- t) (- t)) t) with (- t)%Z by lia.
      rewrite inject_Z_opp, <- E.
      setoid_replace (- th / (th / scale)) with (- scale) by (field; split; lra).
      rewrite Qabs_opp. apply Qabs_pos; lra.
  - contradiction.
  - set (th := _get_thres bit) in *.
    destruct (clamp_cases (- th) th
                (inject_Z (round_half_even (x / (scale / th)))))
      as [[H E]|[[H _]|[[H _]|[H _]]]]; [|lra..].
    rewrite E. setoid_replace (th / (th / scale)) with scale by (field; split; lra).
    apply Qabs_pos; lra.
Qed.

(** [torch.max] of the magnitudes: an upper bound that is attained. *)
Lemma fold_left_Qmax_le (t : Tensor) (x0 : Q) :
  x0 <= fold_left Qmax t x0 /\ Forall (fun x => x <= fold_left Qmax t x0) t.
Proof.
  revert x0. induction t as [|x t IH]; intros x0; simpl.
  - split; [lra|constructor].
  - destruct (IH (Qmax x0 x)) as [H1 H2].
    pose proof (Q.le_max_l x0 x). pose proof (Q.le_max_r x0 x).
    split; [lra|]. constructor; [lra|exact H2].
Qed.

Lemma fold_left_Qmax_attained (t : Tensor) (x0 : Q) :
  fold_left Qmax t x0 == x0 \/ Exists (fun x => fold_left Qmax t x0 == x) t.
Proof.
  revert x0. induction t as [|x t IH]; intros x0; simpl.
  - left. reflexivity.
  - destruct (IH (Qmax x0 x)) as [H|H].
    + destruct (Q.max_spec x0 x) as [[_ E]|[_ E]].
      * right. constructor. now rewrite H.
      * left. now rewrite H.
    + right. now constructor 2.
Qed.

Lemma torch_max_spec (t : Tensor) (M : Q) :
  torch_max t = Ok M ->
  Forall (fun x => x <= M) t /\ Exists (fun x => M == x) t.
Proof.
  destruct t as [|x0 t]; simpl; [discriminate|]. intros H. inversion H; subst M; clear H.
  destruct (fold_left_Qmax_le t x0) as [H1 H2]. split.
  - constructor; assumption.
  - destruct (fold_left_Qmax_attained t x0) as [H|H].
    + now constructor.
    + now constructor 2.
Qed.

Lemma torch_max_unique (t : Tensor) (M : Q) :
  t <> [] -> Forall (fun x => x <= M) t -> Exists (fun x => M == x) t ->
  exists M', torch_max t = Ok M' /\ M' == M.
Proof.
  intros Hne Hle Hex. destruct t as [|x0 t]; [contradiction|].
  eexists. split; [reflexivity|].
  destruct (torch_max_spec (x0 :: t) _ eq_refl) as [Hle' Hex'].
  apply Qle_antisym.
  - apply Exists_exists in Hex'. destruct Hex' as (x & Hx & E). rewrite E.
    rewrite Forall_forall in Hle. now apply Hle.
  - apply Exists_exists in Hex. destruct Hex as (x & Hx & E). rewrite E.
    rewrite Forall_forall in Hle'. now apply Hle'.
Qed.

Section QuantizeTwice.
Context {T : Torch}.

(** X13: in weight mode the scale estimated from the quantized weights is
    the scale of the first pass, so the second pass returns the same array
    and commits an equal step. *)
Lemma Quantize_weight_idempotent (inputs : Tensor) (cfg : quantize_cfg)
    (last last' : bit_scale) (output : Tensor) (row : bit_scale) :
  cfg.(mode) = "weight" ->
  Quantize inputs cfg last = Ok (output, row) ->
  exists output' row',
    Quantize output cfg last' = Ok (output', row')
    /\ tensor_eq output' output
    /\ fst row' = fst row /\ snd row' == snd row.
Proof.
  intros Hm H. unfold Quantize, QuantizeFunction.forward in *.
  unfold QuantizeFunction.get_scale in *. rewrite Hm in *. simpl in *.
  inv_bind H as M HM.
  destruct (quantize_Ok_inv _ _ _ _ H) as [Ht HM0].
  rewrite (quantize_Ok inputs _ _ Ht HM0) in H. inversion H; subst output row; clear H.
  destruct (torch_max_spec _ _ HM) as [Hle Hex].
  assert (HMpos : 0 < M).
  { apply Exists_exists in Hex. destruct Hex as (a & Ha & E).
    unfold torch_abs in Ha. apply in_map_iff in Ha. destruct Ha as (x & <- & _).
    pose proof (Qabs_nonneg x). lra. }
  destruct (torch_max_unique
              (torch_abs (map (quantize_entry (bit cfg) M) inputs)) M)
    as (M' & HM' & EM').
  - destruct inputs; [discriminate|discriminate].
  - unfold torch_abs. rewrite map_map. apply Forall_forall. intros a Ha.
    apply in_map_iff in Ha. destruct Ha as (x & <- & _).
    now apply quantize_entry_abs_le.
  - unfold torch_abs in *. rewrite map_map.
    apply Exists_exists in Hex. destruct Hex as (a & Ha & E).
    apply in_map_iff in Ha. destruct Ha as (x & <- & Hx).
    apply Exists_exists. exists (Qabs (quantize_entry (bit cfg) M x)).
    split; [apply in_map_iff; now exists x|].
    symmetry. apply quantize_entry_extreme; [assumption..|now symmetry].
  - rewrite HM'. simpl.
    assert (HM'0 : ~ M' == 0) by (rewrite EM'; assumption).
    rewrite (quantize_Ok _ _ _ Ht HM'0).
    eexists _, _. split; [reflexivity|]. split; [|split].
    + apply tensor_eq_map_id. apply Forall_forall. intros y Hy.
      apply in_map_iff in Hy. destruct Hy as (x & <- & _).
      rewrite (quantize_entry_scale_eq _ M' M _ EM').
      apply quantize_entry_idempotent; assumption.
    + reflexivity.
    + simpl. now rewrite EM'.
Qed.

(** X14: in activation mode and phase test the second pass reads the row
    that the first pass committed, whose range is the scale of the first
    pass: it returns the same array and commits an equal step. *)
Lemma Quantize_test_idempotent (inputs : Tensor) (cfg : quantize_cfg)
    (last : bit_scale) (output : Tensor) (row : bit_scale) :
  cfg.(mode) = "activation" -> cfg.(phase) = Some "test" ->
  Quantize inputs cfg last = Ok (output, row) ->
  exists output' row',
    Quantize output cfg row = Ok (output', row')
    /\ tensor_eq output' output
    /\ fst row' = fst row /\ snd row' == snd row.
Proof.
  intros Hm Hp H. unfold Quantize, QuantizeFunction.forward in *.
  unfold QuantizeFunction.get_scale in *. rewrite Hm, Hp in *. simpl in *.
  set (r := snd last * _get_thres (fst last)) in *.
  destruct (quantize_Ok_inv _ _ _ _ H) as [Ht Hr].
  rewrite (quantize_Ok inputs _ _ Ht Hr) in H. inversion H; subst output row; clear H.
  simpl fst. simpl snd.
  assert (Er : r / _get_thres (bit cfg) * _get_thres (bit cfg) == r) by (field; assumption).
  assert (Hr' : ~ r / _get_thres (bit cfg) * _get_thres (bit cfg) == 0)
    by (rewrite Er; assumption).
  rewrite (quantize_Ok _ _ _ Ht Hr').
  eexists _, _. split; [reflexivity|]. split; [|split].
  - apply tensor_eq_map_id. apply Forall_forall. intros y Hy.
    apply in_map_iff in Hy. destruct Hy as (x & <- & _).
    rewrite (quantize_entry_scale_eq _ _ r _ Er).
    apply quantize_entry_idempotent; assumption.
  - reflexivity.
  - simpl. now rewrite Er.
Qed.

End QuantizeTwice.

(** ** Scale estimation *)

Section ScaleEstimation.
Context {T : Torch}.

(** C4, as the code has it: in activation mode and phase train the scale is
    the data estimate [3·std + |mean|] when the committed range is not
    positive, and else the blend [0.707·r_scale + 0.293·t_scale], which lies
    strictly between the two when they differ and equals both when they
    coincide. *)
Theorem get_scale_activation_train (inputs : Tensor) (cfg : quantize_cfg)
    (last_bit_scale : bit_scale) (sd mu : Q) :
  cfg.(mode) = "activation" -> cfg.(phase) = Some "train" ->
  torch_std inputs = Ok sd -> torch_mean inputs = Ok mu ->
  let r_scale := snd last_bit_scale * _get_thres (fst last_bit_scale) in
  let t_scale := 3 * sd + Qabs mu in
  exists scale,
    QuantizeFunction.get_scale inputs cfg last_bit_scale = Ok scale
    /\ (r_scale <= 0 -> scale = t_scale)
    /\ (0 < r_scale ->
        scale == (707 # 1000) * r_scale + (293 # 1000) * t_scale
        /\ (t_scale < r_scale -> t_scale < scale < r_scale)
        /\ (r_scale < t_scale -> r_scale < scale < t_scale)
        /\ (t_scale == r_scale -> scale == r_scale)).
Proof.
  intros Hm Hp Hsd Hmu r_scale t_scale.
  unfold QuantizeFunction.get_scale. rewrite Hm, Hp, Hsd, Hmu. simpl.
  fold r_scale. fold t_scale.
  destruct (Qle_bool r_scale 0) eqn:E.
  - apply Qle_bool_iff in E. exists t_scale.
    split; [reflexivity|]. split; [reflexivity|]. intros; lra.
  - assert (Hr : 0 < r_scale).
    { apply Qnot_le_lt. intros Hle. apply Qle_bool_iff in Hle. congruence. }
    eexists. split; [reflexivity|]. split; [intros; lra|]. intros _.
    unfold QuantizeFunction.RATIO. repeat split; intros; lra.
Qed.

End ScaleEstimation.

(** The entries 1, 2, 3 (deviation 1, mean 2, estimate 5) against the row
    (4, 1), whose range is 7: the blend 6.414 lies between 5 and 7. *)
Lemma get_scale_activation_train_witness :
  exists scale,
    QuantizeFunction.get_scale (T := fc_torch 3) [1; 2; 3]
      {| mode := "activation"; phase := Some "train"; bit := 4 |} (4%Z, 1)
    = Ok scale
    /\ (1 * _get_thres 4 <= 0 -> scale = 3 * 1 + Qabs (6 # 3))
    /\ (0 < 1 * _get_thres 4 ->
        scale == (707 # 1000) * (1 * _get_thres 4)
                 + (293 # 1000) * (3 * 1 + Qabs (6 # 3))
        /\ (3 * 1 + Qabs (6 # 3) < 1 * _get_thres 4 ->
            3 * 1 + Qabs (6 # 3) < scale < 1 * _get_thres 4)
        /\ (1 * _get_thres 4 < 3 * 1 + Qabs (6 # 3) ->
            1 * _get_thres 4 < scale < 3 * 1 + Qabs (6 # 3))
        /\ (3 * 1 + Qabs (6 # 3) == 1 * _get_thres 4 ->
            scale == 1 * _get_thres 4)).
Proof.
  apply (get_scale_activation_train (T := fc_torch 3) [1; 2; 3]
           {| mode := "activation"; phase := Some "train"; bit := 4 |}
           (4%Z, 1) 1 (6 # 3));
    reflexivity.
Defined.

(** C4 as stated fails when the data estimate and the committed range
    coincide.  The tensor [3; 4; 5] has deviation 1 and mean 4, so its
    estimate is 3 + 4 = 7; the row (4, 1) has the range 1 · 7 = 7 as well:
    the blend is 7, not strictly between the two. *)
Lemma get_scale_blend_not_strict :
  let inputs := [3; 4; 5] in
  let last_bit_scale := (4%Z, 1) in
  let r_scale := snd last_bit_scale * _get_thres (fst last_bit_scale) in
  let t_scale := 3 * 1 + Qabs 4 in
  torch_std (Torch := fc_torch 3) inputs = Ok 1
  /\ (exists mu, torch_mean inputs = Ok mu /\ mu == 4)
  /\ r_scale == 7 /\ t_scale == 7
  /\ exists scale,
       QuantizeFunction.get_scale (T := fc_torch 3) inputs
         {| mode := "activation"; phase := Some "train"; bit := 4 |} last_bit_scale
       = Ok scale
       /\ scale == 7
       /\ ~ ((t_scale < scale /\ scale < r_scale) \/ (r_scale < scale /\ scale < t_scale)).
Proof.
  cbv zeta. split; [reflexivity|]. split; [eexists; split; reflexivity|].
  split; [reflexivity|]. split; [reflexivity|].
  eexists. split; [reflexivity|]. split; [reflexivity|].
  intros [[H1 H2]|[H1 H2]]; vm_compute in H1, H2; discriminate.
Qed.

(** ** Lists, ranges and traversals *)

Lemma range_length (n : Z) : length (range n) = Z.to_nat n.
Proof. unfold range. now rewrite length_map, length_seq. Qed.

Lemma range_In (n i : Z) : In i (range n) <-> (0 <= i < n)%Z.
Proof.
  unfold range. rewrite in_map_iff. split.
  - intros (k & <- & Hk). apply in_seq in Hk. lia.
  - intros Hi. exists (Z.to_nat i). split; [lia|]. apply in_seq. lia.
Qed.

Lemma range_nth_error (n : Z) (k : nat) :
  (k < Z.to_nat n)%nat -> nth_error (range n) k = Some (Z.of_nat k).
Proof.
  intros Hk. unfold range. rewrite nth_error_map.
  rewrite (nth_error_nth' _ 0%nat) by (now rewrite length_seq).
  now rewrite seq_nth.
Qed.

Lemma traverse_map_Ok {A B} (f : A -> result B) (g : A -> B) (l : list A) :
  (forall a, In a l -> f a = Ok (g a)) -> traverse f l = Ok (map g l).
Proof.
  induction l as [|a l IH]; intros H; simpl; [reflexivity|].
  rewrite (H a) by (now left). simpl. rewrite IH by (intros; apply H; now right).
  reflexivity.
Qed.

Lemma zip_with_map (f : Q -> Q -> Q) (g h : Q -> Q) (t : Tensor) :
  zip_with f (map g t) (map h t) = map (fun x => f (g x) (h x)) t.
Proof.
  unfold zip_with. induction t as [|x t IH]; simpl; [reflexivity|].
  now rewrite IH.
Qed.

Lemma nth_map_entry (f : Q -> Q) (t : Tensor) (k : nat) (x : Q) :
  nth_error t k = Some x -> nth k (map f t) 0 = f x.
Proof.
  revert k. induction t as [|y t IH]; intros [|k] H; simpl in *;
    try discriminate; [now inversion H|auto].
Qed.

(** ** The bit splitter, entry by entry *)

Lemma t_weight_nth (c j : Z) (b0 a : Tensor) (F : Z -> Tensor) :
  (0 <= j <= c)%Z -> (1 <= c)%Z ->
  nth_error (b0 :: map F (range (c - 1)) ++ [a]) (Z.to_nat j)
  = Some (if (j =? 0)%Z then b0 else if (j <? c)%Z then F (j - 1)%Z else a).
Proof.
  intros Hj Hc.
  destruct (Z.eqb_spec j 0) as [->|Hj0]; [reflexivity|].
  replace (Z.to_nat j) with (S (Z.to_nat (j - 1))) by lia.
  cbn [app nth_error].
  destruct (Z.ltb_spec j c) as [Hlt|Hge].
  - rewrite nth_error_app1 by (rewrite length_map, range_length; lia).
    rewrite nth_error_map, range_nth_error by lia.
    simpl. now rewrite Z2Nat.id by lia.
  - rewrite nth_error_app2 by (rewrite length_map, range_length; lia).
    rewrite length_map, range_length.
    replace (Z.to_nat (j - 1) - Z.to_nat (c - 1))%nat with 0%nat by lia.
    reflexivity.
Qed.

Lemma t_weight_entry (bit_split c j : Z) (abs_tensor : Tensor) :
  (0 <= j <= c)%Z -> (1 <= c)%Z ->
  index (broadcast 0 abs_tensor
         :: map (fun i => torch_fmod abs_tensor (2 ^ (bit_split * (i + 1))))
                (range (c - 1))
         ++ [abs_tensor]) (Z.to_nat j)
  = Ok (map (fun m => residue bit_split c m j) abs_tensor).
Proof.
  intros Hj Hc. unfold index.
  rewrite (t_weight_nth c j _ _
             (fun i => torch_fmod abs_tensor (2 ^ (bit_split * (i + 1))))) by assumption.
  f_equal. unfold residue.
  destruct (j =? 0)%Z; [reflexivity|].
  destruct (j <? c)%Z.
  - replace (j - 1 + 1)%Z with j by lia. reflexivity.
  - now rewrite map_id.
Qed.

Lemma split_by_bit_entries (tensor : Tensor) (scale : Q) (bit_width bit_split c : Z) :
  ~ scale == 0 -> _get_cycle bit_width bit_split = Ok c ->
  split_by_bit tensor scale bit_width bit_split
  = Ok (map (fun i =>
               map (fun x => slice_entry bit_split c
                               (quantize_level x scale bit_width) i) tensor)
            (range c)).
Proof.
  intros Hs Hc. unfold split_by_bit. rewrite Hc. simpl rbind.
  destruct (Qeq_bool scale 0) eqn:E; [apply Qeq_bool_iff in E; contradiction|].
  simpl rbind. cbv zeta. apply traverse_map_Ok. intros i Hi. apply range_In in Hi.
  cbv beta. rewrite !t_weight_entry by lia. simpl rbind. f_equal.
  unfold tensor_sub, torch_mul, tensor_div, torch_sign, torch_abs, torch_clamp,
    torch_round.
  rewrite zip_with_map, !map_map, zip_with_map.
  reflexivity.
Qed.

(** ** Signs, remainders and digits *)

#[export] Instance Qsign_Proper : Proper (Qeq ==> eq) Qsign.
Proof. intros x y E. unfold Qsign. now rewrite (Qcompare_comp _ _ E 0 0 (Qeq_refl 0)). Qed.

Lemma Qsign_Z (z : Z) : Qsign (inject_Z z) = inject_Z (Z.sgn z).
Proof.
  unfold Qsign, Qcompare. simpl. rewrite Z.mul_1_r.
  destruct z; reflexivity.
Qed.

Lemma Qabs_Z (z : Z) : Qabs (inject_Z z) = inject_Z (Z.abs z).
Proof. reflexivity. Qed.

#[export] Instance Qtrunc_Proper : Proper (Qeq ==> eq) Qtrunc.
Proof.
  intros x y E. unfold Qtrunc.
  rewrite (Qleb_comp 0 0 (Qeq_refl 0) x y E).
  now rewrite (Qfloor_comp x y E), (Qceiling_comp x y E).
Qed.

#[export] Instance Qfmod_Proper : Proper (Qeq ==> Qeq ==> Qeq) Qfmod.
Proof.
  intros x x' Ex y y' Ey. unfold Qfmod.
  assert (Et : Qtrunc (x / y) = Qtrunc (x' / y')) by (now rewrite Ex, Ey).
  now rewrite Et, Ex, Ey.
Qed.

Lemma Qfmod_Z (a b : Z) :
  (0 <= a)%Z -> (0 < b)%Z ->
  Qfmod (inject_Z a) (inject_Z b) == inject_Z (a mod b).
Proof.
  intros Ha Hb. unfold Qfmod, Qtrunc.
  assert (Hq : 0 <= inject_Z a / inject_Z b).
  { apply Qle_shift_div_l; [unfold Qlt; simpl; lia|].
    rewrite Qmult_0_l. unfold Qle; simpl; lia. }
  apply Qle_bool_iff in Hq. rewrite Hq, <- Zdiv_Qdiv.
  rewrite Z.mod_eq by lia.
  unfold Zminus. rewrite inject_Z_plus, inject_Z_opp, inject_Z_mult. ring.
Qed.

(** The difference of two consecutive residues is one digit, in place. *)
Lemma residue_step (m s i : Z) :
  (0 <= s)%Z -> (0 <= i)%Z ->
  (m mod 2 ^ (s * (i + 1)) - m mod 2 ^ (s * i)
   = 2 ^ (s * i) * ((m / 2 ^ (s * i)) mod 2 ^ s))%Z.
Proof.
  intros Hs Hi.
  replace (s * (i + 1))%Z with (s * i + s)%Z by ring.
  rewrite Z.pow_add_r by nia.
  rewrite Z.rem_mul_r; [lia| |].
  - apply Z.pow_nonzero; [lia|nia].
  - apply Z.pow_pos_nonneg; lia.
Qed.

Lemma residue_Z (bit_split c mz j : Z) (m : Q) :
  m == inject_Z mz -> (0 <= bit_split)%Z -> (0 <= j <= c)%Z ->
  (0 <= mz < 2 ^ (bit_split * c))%Z ->
  residue bit_split c m j == inject_Z (mz mod 2 ^ (bit_split * j)).
Proof.
  intros Em Hs Hj Hm. unfold residue.
  destruct (Z.eqb_spec j 0) as [->|Hj0].
  - rewrite Z.mul_0_r. simpl. now rewrite Z.mod_1_r.
  - destruct (Z.ltb_spec j c) as [Hlt|Hge].
    + rewrite Em, two_power_Z by nia.
      apply Qfmod_Z; [lia|]. apply Z.pow_pos_nonneg; [lia|nia].
    + replace j with c by lia. rewrite Z.mod_small by lia. exact Em.
Qed.

Lemma slice_entry_Z (bit_split c z i : Z) (q : Q) :
  q == inject_Z z -> (0 <= bit_split)%Z -> (0 <= i < c)%Z ->
  (Z.abs z < 2 ^ (bit_split * c))%Z ->
  slice_entry bit_split c q i
  == Qsign q * inject_Z ((Z.abs z / 2 ^ (bit_split * i)) mod 2 ^ bit_split).
Proof.
  intros Eq Hs Hi Hz. unfold slice_entry.
  assert (Ea : Qabs q == inject_Z (Z.abs z)) by (now rewrite Eq).
  rewrite (residue_Z bit_split c (Z.abs z) (i + 1) (Qabs q)) by (assumption || lia).
  rewrite (residue_Z bit_split c (Z.abs z) i (Qabs q)) by (assumption || lia).
  apply Qmult_comp; [reflexivity|].
  unfold Qminus. rewrite <- inject_Z_opp, <- inject_Z_plus.
  change (Z.abs z mod 2 ^ (bit_split * (i + 1)) + - (Z.abs z mod 2 ^ (bit_split * i)))%Z
    with (Z.abs z mod 2 ^ (bit_split * (i + 1)) - Z.abs z mod 2 ^ (bit_split * i))%Z.
  rewrite residue_step by lia.
  rewrite inject_Z_mult, two_power_Z by nia.
  field. rewrite <- two_power_Z by nia. apply Qpower_not_0. discriminate.
Qed.

(** Placing a slice entry: the difference of two residues, signed. *)
Lemma slice_entry_placed (bit_split c z i : Z) (q : Q) :
  q == inject_Z z -> (0 <= bit_split)%Z -> (0 <= i < c)%Z ->
  (Z.abs z < 2 ^ (bit_split * c))%Z ->
  slice_entry bit_split c q i * 2 ^ (bit_split * i)
  == Qsign q * (inject_Z (Z.abs z mod 2 ^ (bit_split * (i + 1)))
                - inject_Z (Z.abs z mod 2 ^ (bit_split * i))).
Proof.
  intros Eq Hs Hi Hz. unfold slice_entry.
  assert (Ea : Qabs q == inject_Z (Z.abs z)) by (now rewrite Eq).
  rewrite (residue_Z bit_split c (Z.abs z) (i + 1) (Qabs q)) by (assumption || lia).
  rewrite (residue_Z bit_split c (Z.abs z) i (Qabs q)) by (assumption || lia).
  field. apply Qpower_not_0. discriminate.
Qed.

Lemma positional_sum_telescope (bit_split c z : Z) (q : Q) (n k : nat) :
  q == inject_Z z -> (0 <= bit_split)%Z -> (Z.of_nat (k + n) <= c)%Z ->
  (Z.abs z < 2 ^ (bit_split * c))%Z ->
  positional_sum_from bit_split (Z.of_nat k)
    (map (slice_entry bit_split c q) (map Z.of_nat (seq k n)))
  == Qsign q * (inject_Z (Z.abs z mod 2 ^ (bit_split * Z.of_nat (k + n)))
                - inject_Z (Z.abs z mod 2 ^ (bit_split * Z.of_nat k))).
Proof.
  intros Eq Hs. revert k. induction n as [|n IH]; intros k Hk Hz.
  - rewrite Nat.add_0_r. simpl. ring.
  - cbn [seq map positional_sum_from].
    rewrite (slice_entry_placed bit_split c z (Z.of_nat k) q) by (assumption || lia).
    replace (Z.of_nat k + 1)%Z with (Z.of_nat (S k)) by lia.
    rewrite (IH (S k)) by (assumption || lia).
    replace (S k + n)%nat with (k + S n)%nat by lia.
    replace (Z.of_nat k + 1)%Z with (Z.of_nat (S k)) by lia.
    ring.
Qed.

Lemma Qsign_Qabs (z : Z) : inject_Z (Z.sgn z) * inject_Z (Z.abs z) == inject_Z z.
Proof. rewrite <- inject_Z_mult. apply inject_Z_injective. lia. Qed.

Lemma positional_sum_slices (bit_split c z : Z) (q : Q) :
  q == inject_Z z -> (0 <= bit_split)%Z -> (0 <= c)%Z ->
  (Z.abs z < 2 ^ (bit_split * c))%Z ->
  positional_sum bit_split (map (slice_entry bit_split c q) (range c)) == q.
Proof.
  intros Eq Hs Hc Hz. unfold positional_sum, range.
  rewrite (positional_sum_telescope bit_split c z q (Z.to_nat c) 0) by (assumption || lia).
  rewrite Nat.add_0_l, Z2Nat.id by lia.
  rewrite Z.mod_small by lia.
  change (Z.of_nat 0) with 0%Z. rewrite Z.mul_0_r. change (2 ^ 0)%Z with 1%Z.
  rewrite Z.mod_1_r, Eq at 1. rewrite Qsign_Z.
  setoid_replace (inject_Z (Z.abs z) - inject_Z 0) with (inject_Z (Z.abs z)) by ring.
  rewrite Qsign_Qabs. now symmetry.
Qed.

Lemma _get_cycle_Ok (bit_width bit_split : Z) :
  (1 <= bit_width)%Z -> (1 <= bit_split)%Z ->
  exists c,
    _get_cycle bit_width bit_split = Ok c
    /\ c = Qceiling (inject_Z (bit_width - 1) / inject_Z bit_split)
    /\ (0 <= c)%Z /\ (bit_width - 1 <= bit_split * c)%Z.
Proof.
  intros Hb Hs. unfold _get_cycle.
  destruct (Z.eqb_spec bit_split 0); [lia|].
  eexists. split; [reflexivity|]. split; [reflexivity|].
  set (x := inject_Z (bit_width - 1) / inject_Z bit_split).
  assert (Hpos : 0 < inject_Z bit_split) by (unfold Qlt; simpl; lia).
  assert (Hx : 0 <= x).
  { apply Qle_shift_div_l; [assumption|]. rewrite Qmult_0_l. unfold Qle; simpl; lia. }
  split.
  - rewrite <- (Qceiling_Z 0). now apply Qceiling_resp_le.
  - pose proof (Qle_ceiling x) as Hc.
    assert (Hm : inject_Z (bit_width - 1) <= inject_Z (Qceiling x) * inject_Z bit_split).
    { setoid_replace (inject_Z (bit_width - 1)) with (x * inject_Z bit_split)
        by (unfold x; field; lra).
      apply Qmult_le_compat_r; lra. }
    rewrite <- inject_Z_mult, <- Zle_Qle in Hm. lia.
Qed.

Lemma quantize_level_Z (x scale : Q) (bit_width : Z) :
  (1 <= bit_width)%Z ->
  exists z : Z,
    quantize_level x scale bit_width == inject_Z z
    /\ (Z.abs z <= 2 ^ (bit_width - 1) - 1)%Z.
Proof.
  intros Hb. unfold quantize_level. cbv zeta.
  set (r := round_half_even (x / scale)).
  set (t := (2 ^ (bit_width - 1) - 1)%Z).
  assert (Ht : (0 <= t)%Z).
  { assert (0 < 2 ^ (bit_width - 1))%Z by (apply Z.pow_pos_nonneg; lia). lia. }
  exists (Z.min (Z.max r (- t)) t). split; [|lia].
  rewrite (_get_thres_Z bit_width Hb). fold t.
  rewrite <- inject_Z_opp. apply clamp_inject_Z.
Qed.

(** C1: the slices of [split_by_bit] are as many as the cycle says; at every
    entry each slice is the sign of the level times a magnitude below
    [2^cell_bit], and their positional sum is the level. *)
Theorem split_by_bit_roundtrip (tensor : Tensor) (scale : Q) (bit_width cell_bit : Z) :
  ~ scale == 0 -> (1 <= bit_width)%Z -> (1 <= cell_bit)%Z ->
  exists slices,
    split_by_bit tensor scale bit_width cell_bit = Ok slices
    /\ _get_cycle bit_width cell_bit = Ok (Z.of_nat (length slices))
    /\ Z.of_nat (length slices) = Qceiling (inject_Z (bit_width - 1) / inject_Z cell_bit)
    /\ Forall (fun sl => length sl = length tensor) slices
    /\ forall k x, nth_error tensor k = Some x ->
         let q := quantize_level x scale bit_width in
         Qabs q <= _get_thres bit_width
         /\ Forall (fun sl => exists mag : Z,
                        (0 <= mag < 2 ^ cell_bit)%Z
                        /\ nth k sl 0 == Qsign q * inject_Z mag) slices
         /\ positional_sum cell_bit (map (fun sl => nth k sl 0) slices) == q.
Proof.
  intros Hs Hb Hc.
  destruct (_get_cycle_Ok bit_width cell_bit Hb Hc) as (c & Ecyc & Eceil & Hc0 & Hcover).
  eexists. split; [apply (split_by_bit_entries tensor scale bit_width cell_bit c Hs Ecyc)|].
  rewrite length_map, range_length, Z2Nat.id by assumption.
  split; [exact Ecyc|]. split; [exact Eceil|]. split.
  { apply Forall_forall. intros sl Hsl. apply in_map_iff in Hsl.
    destruct Hsl as (i & <- & _). apply length_map. }
  intros k x Hk q.
  destruct (quantize_level_Z x scale bit_width Hb) as (z & Ez & Hz). fold q in Ez.
  assert (Hpow : (2 ^ (bit_width - 1) <= 2 ^ (cell_bit * c))%Z)
    by (apply Z.pow_le_mono_r; lia).
  assert (Hlt : (Z.abs z < 2 ^ (cell_bit * c))%Z) by lia.
  split; [|split].
  - rewrite Ez, (_get_thres_Z bit_width Hb), Qabs_Z. now rewrite <- Zle_Qle.
  - apply Forall_forall. intros sl Hsl. apply in_map_iff in Hsl.
    destruct Hsl as (i & <- & Hi). apply range_In in Hi.
    rewrite (nth_map_entry _ tensor k x Hk). fold q.
    exists ((Z.abs z / 2 ^ (cell_bit * i)) mod 2 ^ cell_bit)%Z.
    split.
    + apply Z.mod_pos_bound. apply Z.pow_pos_nonneg; lia.
    + apply (slice_entry_Z cell_bit c z i q); (assumption || lia).
  - rewrite map_map.
    rewrite (map_ext _ (slice_entry cell_bit c q)).
    + apply (positional_sum_slices cell_bit c z q); (assumption || lia).
    + intros i. now rewrite (nth_map_entry _ tensor k x Hk).
Qed.

(** Three entries at eight bits, two bits per cell. *)
Lemma split_by_bit_roundtrip_witness :
  exists slices,
    split_by_bit [100; - (100); 7 # 2] 1 8 2 = Ok slices
    /\ _get_cycle 8 2 = Ok (Z.of_nat (length slices))
    /\ Z.of_nat (length slices) = Qceiling (inject_Z (8 - 1) / inject_Z 2)
    /\ Forall (fun sl => length sl = length [100; - (100); 7 # 2]) slices
    /\ forall k x, nth_error [100; - (100); 7 # 2] k = Some x ->
         let q := quantize_level x 1 8 in
         Qabs q <= _get_thres 8
         /\ Forall (fun sl => exists mag : Z,
                        (0 <= mag < 2 ^ 2)%Z
                        /\ nth k sl 0 == Qsign q * inject_Z mag) slices
         /\ positional_sum 2 (map (fun sl => nth k sl 0) slices) == q.
Proof.
  apply (split_by_bit_roundtrip [100; - (100); 7 # 2] 1 8 2); [discriminate|lia|lia].
Defined.

(** ** Hardware-accurate inference *)

Lemma traverse_Ok_In {A B} (f : A -> result B) (l : list A) (bs : list B) (b : B) :
  traverse f l = Ok bs -> In b bs -> exists a, In a l /\ f a = Ok b.
Proof.
  revert bs. induction l as [|a l IH]; intros bs H Hb; simpl in H.
  - inversion H; subst. contradiction.
  - inv_bind H as b0 Hb0. inv_bind H as bs0 Hbs0. inversion H; subst bs; clear H.
    destruct Hb as [<-|Hb].
    + exists a. split; [now left|assumption].
    + destruct (IH _ Hbs0 Hb) as (a' & Hin & Hf). exists a'. split; [now right|assumption].
Qed.

Lemma index_Ok {A} (l : list A) (i : nat) (a : A) :
  index l i = Ok a -> nth_error l i = Some a.
Proof. unfold index. destruct (nth_error l i); intros H; now inversion H. Qed.

Lemma In_enumerate {A} (l : list A) (start n : nat) (a : A) :
  In (n, a) (combine (seq start (length l)) l) -> nth_error l (n - start) = Some a.
Proof.
  revert start. induction l as [|b l IH]; intros start H; simpl in H; [contradiction|].
  destruct H as [H|H].
  - inversion H; subst. now rewrite Nat.sub_diag.
  - assert (Hn : (S start <= n)%nat).
    { apply in_combine_l in H. apply in_seq in H. lia. }
    specialize (IH _ H). replace (n - start)%nat with (S (n - S start)) by lia.
    exact IH.
Qed.

Lemma adc_readout_spec (self : BaseWeightLayer) (sc : adc_scales) (i j : Z) (raw : Tensor) :
  get_adc_scales self = Ok sc ->
  adc_readout self.(ini).(hardware) sc i j raw
  = if Qeq_bool (snd self.(bit_scale_list).(output_row)
                 * _get_thres (fst self.(bit_scale_list).(output_row))) 0
    then Raise ZeroDivisionError
    else Ok (map (spec_partial_sum self sc.(weight_cycle) sc.(input_cycle) i j) raw).
Proof.
  intros Hsc. unfold get_adc_scales in Hsc. cbv zeta in Hsc.
  inv_bind Hsc as wc Hwc. inv_bind Hsc as ic Hic. inversion Hsc; subst sc; clear Hsc.
  unfold adc_readout. cbn [output_scale mul_scale transfer_scale output_thres
                           weight_cycle input_cycle].
  destruct (Qeq_bool _ 0); [reflexivity|].
  simpl rbind. unfold tensor_div, torch_clamp, torch_round, tensor_mul.
  rewrite !map_map. reflexivity.
Qed.

Lemma get_adc_scales_cycles (self : BaseWeightLayer) (sc : adc_scales) :
  get_adc_scales self = Ok sc ->
  _get_cycle (fst self.(bit_scale_list).(weight_row)) self.(ini).(hardware).(cell_bit)
  = Ok sc.(weight_cycle)
  /\ _get_cycle (fst self.(bit_scale_list).(input_row)) self.(ini).(hardware).(dac_bit)
     = Ok sc.(input_cycle).
Proof.
  intros Hsc. unfold get_adc_scales in Hsc. cbv zeta in Hsc.
  inv_bind Hsc as wc Hwc. inv_bind Hsc as ic Hic. inversion Hsc; subst sc; clear Hsc.
  split; assumption.
Qed.



Lemma traverse_length {A B} (f : A -> result B) (l : list A) (bs : list B) :
  traverse f l = Ok bs -> length bs = length l.
Proof.
  revert bs. induction l as [|a l IH]; intros bs H; simpl in H.
  - now inversion H.
  - inv_bind H as b0 Hb0. inv_bind H as bs0 Hbs0. inversion H; subst bs; clear H.
    simpl. now rewrite (IH _ Hbs0).
Qed.

Lemma concat_length_const {A} (rows : list (list A)) (k : nat) :
  Forall (fun r => length r = k) rows -> length (List.concat rows) = (length rows * k)%nat.
Proof.
  induction 1 as [|r rows Hr _ IH]; simpl; [reflexivity|].
  now rewrite length_app, Hr, IH.
Qed.

Lemma digit_pair_loop_length (self : BaseWeightLayer) (sc : adc_scales)
    (input_digits weight_digits terms : list Tensor) :
  digit_pair_loop self sc input_digits weight_digits = Ok terms ->
  length terms = (Z.to_nat sc.(input_cycle) * Z.to_nat sc.(weight_cycle))%nat.
Proof.
  unfold digit_pair_loop. intros H. inv_bind H as rows Hrows.
  inversion H; subst terms; clear H.
  rewrite (concat_length_const rows (Z.to_nat sc.(weight_cycle))).
  - now rewrite (traverse_length _ _ _ Hrows), range_length.
  - apply Forall_forall. intros row Hrow.
    destruct (traverse_Ok_In _ _ _ _ Hrows Hrow) as (i & _ & Hinner).
    now rewrite (traverse_length _ _ _ Hinner), range_length.
Qed.

(** One term is accumulated for every digit pair of every sub-operation. *)
Lemma module_loop_length (self : BaseWeightLayer) (sc : adc_scales)
    (input_list : list Tensor) (quantize_weight_bit_list : list (list Tensor))
    (output_list : list Tensor) :
  module_loop self sc input_list quantize_weight_bit_list = Ok output_list ->
  length output_list
  = (length quantize_weight_bit_list
     * (Z.to_nat sc.(input_cycle) * Z.to_nat sc.(weight_cycle)))%nat.
Proof.
  unfold module_loop. intros H. inv_bind H as per_module Hper.
  inversion H; subst output_list; clear H.
  rewrite (concat_length_const per_module
             (Z.to_nat sc.(input_cycle) * Z.to_nat sc.(weight_cycle))).
  - rewrite (traverse_length _ _ _ Hper), length_combine, length_seq.
    now rewrite Nat.min_id.
  - apply Forall_forall. intros pm Hpm.
    destruct (traverse_Ok_In _ _ _ _ Hper Hpm) as ([layer_num wd] & _ & Hbody).
    cbn [fst snd] in Hbody. inv_bind Hbody as x Hx. inv_bind Hbody as digits Hdigits.
    now apply digit_pair_loop_length in Hbody.
Qed.




Section HardwareInference.
Context {T : Torch}.


End HardwareInference.


(** ** Worked examples *)

Ltac tensor_eq_compute := vm_compute; repeat (constructor; try reflexivity).

(** Bit width 8 and two bits per cell: level 100 is split into the four
    digits 0, 1, 2, 1 of 100 = 0 + 4·1 + 16·2 + 64·1. *)
Example split_by_bit_100 :
  exists slices,
    split_by_bit [100] 1 8 2 = Ok slices
    /\ Forall2 tensor_eq slices [[0]; [1]; [2]; [1]].
Proof. eexists. split; [vm_compute; reflexivity|tensor_eq_compute]. Qed.

(** Levels of both signs and a tie: 7/2 rounds to the even level 4. *)
Example split_by_bit_signed :
  exists slices,
    split_by_bit [- (100); 7 # 2; 127; 500] 1 8 2 = Ok slices
    /\ Forall2 tensor_eq slices
         [[0; 0; 3; 3]; [- (1); 1; 3; 3]; [- (2); 0; 3; 3]; [- (1); 0; 1; 1]].
Proof. eexists. split; [vm_compute; reflexivity|tensor_eq_compute]. Qed.

(** A convolution of 20 input channels with 3x3 kernels on crossbars of 72
    rows: eight channels per crossbar, in partitions of 8, 8 and 4. *)
Example get_module_config_conv :
  get_module_config conv
    {| quantize := {| q_input := 8; q_weight := 8; q_output := 8 |};
       hardware := {| xbar_row := 72; cell_bit := 2; dac_bit := 1;
                      adc_bit := 8; point_shift := 0 |};
       layer := {| in_channels := 20; in_features := 0; out_features := 0;
                   kernel_size := 3 |} |}
  = Ok (8%Z, [8; 8; 4]%Z).
Proof. reflexivity. Qed.

(** The worked layer in full precision: the product of the weight rows
    (1, 0, 0), (-1, 0, 1), (1, 1, 0) with the input (1, 2, 3). *)
Example forward_TRADITION_example :
  exists out,
    forward (T := fc_torch 3) fresh_layer example_inputs "TRADITION" None
    = (get_buffer_list example_ini, Ok out)
    /\ tensor_eq out [1; 2; 3].
Proof. eexists. split; [vm_compute; reflexivity|tensor_eq_compute]. Qed.

(** A first training pass of the fresh layer commits the weight step 1/7
    and, the committed range being the sentinel, the data estimate 5 as the
    range of the output: its step is 5/7. *)
Example forward_FIX_TRAIN_example :
  exists s out,
    forward (T := fc_torch 3) (prepare fresh_layer (example_call "FIX_TRAIN" None true))
            example_inputs "FIX_TRAIN" None = (s, Ok out)
    /\ s.(input_row) = (4%Z, - (1))
    /\ fst s.(weight_row) = 4%Z /\ snd s.(weight_row) == 1 # 7
    /\ fst s.(output_row) = 4%Z /\ snd s.(output_row) == 5 # 7
    /\ tensor_eq out [5 # 7; 15 # 7; 20 # 7].
Proof.
  eexists _, _. split; [vm_compute; reflexivity|]. repeat split; tensor_eq_compute.
Qed.

(** Hardware-accurate inference of the committed layer: the input row is
    the one supplied, and the digits recombine to the levels 1, 3, 4 of the
    output step 5/7. *)
Example forward_SINGLE_FIX_TEST_example :
  exists s out,
    forward (T := fc_torch 3) example_layer example_inputs "SINGLE_FIX_TEST"
            (Some [(4%Z, 3 # 7)]) = (s, Ok out)
    /\ s = example_layer.(bit_scale_list)
    /\ tensor_eq out [5 # 7; 15 # 7; 20 # 7].
Proof.
  eexists _, _. split; [vm_compute; reflexivity|]. split; [vm_compute; reflexivity|tensor_eq_compute].
Qed.

(** An empty [input_config] raises when its first element is read. *)
Example forward_SINGLE_FIX_TEST_empty_config :
  forward (T := fc_torch 3) example_layer example_inputs "SINGLE_FIX_TEST" (Some [])
  = (example_layer.(bit_scale_list), Raise IndexError).
Proof. vm_compute. reflexivity. Qed.

(** The buffer of the fresh layer after the six calls of [example_calls]. *)
Example forward_calls_example :
  let s := (forward_calls (T := fc_torch 3) fresh_layer example_calls).(bit_scale_list) in
  s.(input_row) = (6%Z, 3 # 31)
  /\ fst s.(weight_row) = 4%Z /\ snd s.(weight_row) == 1 # 7
  /\ fst s.(output_row) = 4%Z /\ snd s.(output_row) == 5 # 7.
Proof. vm_compute. repeat split; reflexivity. Qed.

(** * Further properties *)

(** ** Cycles and partitions *)

(** X1: the cycle count is the least number of [bit_split]-bit digits that
    holds every level: [bit_split] times the count reaches [bit_width - 1]
    and one cycle fewer does not, so the threshold is below
    [2^(bit_split·cycle)] and, from one cycle on, not below
    [2^(bit_split·(cycle-1))]. *)
Theorem _get_cycle_least (bit_width bit_split : Z) :
  (1 <= bit_width)%Z -> (1 <= bit_split)%Z ->
  exists cycle,
    _get_cycle bit_width bit_split = Ok cycle
    /\ (bit_split * (cycle - 1) < bit_width - 1 <= bit_split * cycle)%Z
    /\ _get_thres bit_width < 2 ^ (bit_split * cycle)
    /\ ((1 <= cycle)%Z -> 2 ^ (bit_split * (cycle - 1)) <= _get_thres bit_width).
Proof.
  intros Hb Hs.
  destruct (_get_cycle_Ok bit_width bit_split Hb Hs) as (c & Ec & Eceil & Hc0 & Hcover).
  exists c. split; [exact Ec|].
  assert (Hlow : (bit_split * (c - 1) < bit_width - 1)%Z).
  { pose proof (Qceiling_lt (inject_Z (bit_width - 1) / inject_Z bit_split)) as Hlt.
    rewrite <- Eceil in Hlt.
    assert (Hpos : 0 < inject_Z bit_split) by (unfold Qlt; simpl; lia).
    assert (Hm : inject_Z (c - 1) * inject_Z bit_split < inject_Z (bit_width - 1)).
    { setoid_replace (inject_Z (bit_width - 1))
        with (inject_Z (bit_width - 1) / inject_Z bit_split * inject_Z bit_split)
        by (field; lra).
      apply Qmult_lt_compat_r; assumption. }
    rewrite <- inject_Z_mult, <- Zlt_Qlt in Hm. lia. }
  split; [lia|].
  rewrite (_get_thres_Z bit_width Hb). split.
  - rewrite two_power_Z by nia. rewrite <- Zlt_Qlt.
    assert (2 ^ (bit_width - 1) <= 2 ^ (bit_split * c))%Z
      by (apply Z.pow_le_mono_r; lia).
    lia.
  - intros Hc1. rewrite two_power_Z by nia. rewrite <- Zle_Qle.
    assert (2 ^ (bit_split * (c - 1)) <= 2 ^ (bit_width - 2))%Z
      by (apply Z.pow_le_mono_r; nia).
    assert (Hbw : (2 <= bit_width)%Z) by nia.
    replace (bit_width - 1)%Z with (1 + (bit_width - 2))%Z by lia.
    rewrite Z.pow_add_r by lia. change (2 ^ 1)%Z with 2%Z.
    assert (0 < 2 ^ (bit_width - 2))%Z by (apply Z.pow_pos_nonneg; lia).
    lia.
Qed.

(** Eight bits on cells of two bits: four cycles. *)
Lemma _get_cycle_least_witness :
  exists cycle,
    _get_cycle 8 2 = Ok cycle
    /\ (2 * (cycle - 1) < 8 - 1 <= 2 * cycle)%Z
    /\ _get_thres 8 < 2 ^ (2 * cycle)
    /\ ((1 <= cycle)%Z -> 2 ^ (2 * (cycle - 1)) <= _get_thres 8).
Proof. apply (_get_cycle_least 8 2); lia. Defined.

Lemma ceil_div (a b : Z) :
  (0 < b)%Z -> ((a + b - 1) / b = a / b + Z.b2z (0 <? a mod b))%Z.
Proof.
  intros Hb.
  pose proof (Z.div_mod a b ltac:(lia)) as Hdm.
  pose proof (Z.mod_pos_bound a b Hb) as Hm.
  destruct (Z.ltb_spec 0 (a mod b)); simpl Z.b2z.
  - symmetry. apply (Z.div_unique _ _ _ (a mod b - 1)); lia.
  - symmetry. apply (Z.div_unique _ _ _ (b - 1)); lia.
Qed.

Lemma split_by_num_length (num base : Z) (chunks : list Z) :
  split_by_num num base = Ok chunks ->
  Z.of_nat (length chunks) = ((num + base - 1) / base)%Z.
Proof.
  intros H. unfold split_by_num in H.
  destruct (Z.ltb_spec 0 num) as [Hn|]; [|discriminate].
  destruct (Z.ltb_spec 0 base) as [Hb|]; [|discriminate].
  inversion H; subst chunks; clear H.
  rewrite !list_mul_singleton.
  assert (Hq : (0 <= num / base)%Z) by (apply Z.div_pos; lia).
  rewrite length_app, !repeat_length, ceil_div by assumption.
  destruct (0 <? num mod base)%Z; simpl Z.b2z; simpl Z.to_nat; lia.
Qed.

(** X2: the plan has [ceil(num / base)] chunks, none of them empty. *)
Theorem split_by_num_count (num base : Z) (chunks : list Z) :
  split_by_num num base = Ok chunks ->
  Z.of_nat (length chunks) = ((num + base - 1) / base)%Z
  /\ chunks <> []
  /\ Forall (fun c => (0 < c)%Z) chunks.
Proof.
  intros H. pose proof (split_by_num_length num base chunks H) as Hlen.
  unfold split_by_num in H.
  destruct (Z.ltb_spec 0 num) as [Hn|]; [|discriminate].
  destruct (Z.ltb_spec 0 base) as [Hb|]; [|discriminate].
  inversion H; subst chunks; clear H.
  rewrite !list_mul_singleton in *.
  pose proof (Z.mod_pos_bound num base Hb) as Hm.
  pose proof (Z.div_mod num base ltac:(lia)) as Hdm.
  assert (Hq : (0 <= num / base)%Z) by (apply Z.div_pos; lia).
  split; [exact Hlen|]. clear Hlen. split.
  - intros E. apply (f_equal (@length Z)) in E.
    rewrite length_app, !repeat_length in E. simpl in E.
    destruct (Z.ltb_spec 0 (num mod base)); simpl in E; [lia|].
    assert (num / base = 0)%Z by lia. nia.
  - apply Forall_app. split; apply Forall_forall; intros c Hc.
    + apply repeat_spec in Hc. lia.
    + destruct (Z.ltb_spec 0 (num mod base)); simpl in Hc; [|contradiction].
      destruct Hc as [<-|[]]. assumption.
Qed.

(** Ten on three: four chunks, as in the docstring. *)
Lemma split_by_num_count_witness :
  Z.of_nat (length [3; 3; 3; 1]%Z) = ((10 + 3 - 1) / 3)%Z
  /\ [3; 3; 3; 1]%Z <> []
  /\ Forall (fun c => (0 < c)%Z) [3; 3; 3; 1]%Z.
Proof. apply (split_by_num_count 10 3). reflexivity. Defined.

Lemma split_by_num_Ok_inv (num base : Z) (chunks : list Z) :
  split_by_num num base = Ok chunks ->
  (0 < num)%Z /\ (0 < base)%Z /\ sum_Z chunks = num
  /\ Forall (fun c => (0 < c <= base)%Z) chunks.
Proof.
  intros H. pose proof H as H'. unfold split_by_num in H'.
  destruct (Z.ltb_spec 0 num) as [Hn|]; [|discriminate].
  destruct (Z.ltb_spec 0 base) as [Hb|]; [|discriminate]. clear H'.
  rewrite (split_by_num_ok num base Hn Hb) in H. inversion H; subst chunks; clear H.
  pose proof (Z.mod_pos_bound num base Hb) as Hm.
  pose proof (Z.div_mod num base ltac:(lia)) as Hdm.
  assert (Hq : (0 <= num / base)%Z) by (apply Z.div_pos; lia).
  split; [assumption|]. split; [assumption|]. unfold remainder_chunk. split.
  - rewrite sum_Z_app, sum_Z_repeat, Z2Nat.id by lia.
    destruct (Z.ltb_spec 0 (num mod base)); unfold sum_Z; simpl; lia.
  - apply Forall_app. split.
    + apply Forall_forall. intros c Hc. apply repeat_spec in Hc. lia.
    + destruct (Z.ltb_spec 0 (num mod base)); constructor; [lia|constructor].
Qed.

(** X3: the partitions of a convolution fit the crossbar.  The channels per
    partition are [floor(xbar_row / kernel_size^2)]; every partition has at
    least one channel and its channels times [kernel_size^2] rows are at
    most [xbar_row]; the partitions cover the input channels. *)
Theorem get_module_config_conv_fits (ini : layer_ini) (input_split_num : Z)
    (in_channels_list : list Z) :
  get_module_config conv ini = Ok (input_split_num, in_channels_list) ->
  let k2 := (ini.(layer).(kernel_size) ^ 2)%Z in
  input_split_num = (ini.(hardware).(xbar_row) / k2)%Z
  /\ (0 < input_split_num)%Z
  /\ sum_Z in_channels_list = ini.(layer).(in_channels)
  /\ Forall (fun c => (0 < c)%Z /\ (c * k2 <= ini.(hardware).(xbar_row))%Z)
            in_channels_list
  /\ Z.of_nat (length in_channels_list)
     = ((ini.(layer).(in_channels) + input_split_num - 1) / input_split_num)%Z.
Proof.
  intros H k2. unfold get_module_config in H. cbv zeta in H. fold k2 in H.
  destruct (Z.eqb_spec k2 0) as [|Hk]; [discriminate|].
  cbn [rbind] in H. rewrite <- Zdiv_Qdiv in H.
  inv_bind H as plan Hplan. inversion H; subst input_split_num in_channels_list; clear H.
  assert (Hk2 : (0 < k2)%Z).
  { pose proof (Z.pow_2_r (kernel_size (layer ini))). fold k2 in H. nia. }
  destruct (split_by_num_Ok_inv _ _ _ Hplan) as (Hn & Hb & Hsum & Hall).
  pose proof (split_by_num_length _ _ _ Hplan) as Hlen.
  split; [reflexivity|]. split; [assumption|]. split; [assumption|]. split; [|assumption].
  pose proof (Z.mul_div_le (xbar_row (hardware ini)) k2 Hk2) as Hle.
  eapply Forall_impl; [|exact Hall]. cbv beta. intros c [Hc0 Hc]. split; [assumption|].
  nia.
Qed.

(** Twenty channels and 3x3 kernels on 72 rows. *)
Lemma get_module_config_conv_fits_witness :
  let ini := {| quantize := {| q_input := 8; q_weight := 8; q_output := 8 |};
                hardware := {| xbar_row := 72; cell_bit := 2; dac_bit := 1;
                               adc_bit := 8; point_shift := 0 |};
                layer := {| in_channels := 20; in_features := 0; out_features := 0;
                            kernel_size := 3 |} |} in
  let k2 := (ini.(layer).(kernel_size) ^ 2)%Z in
  8%Z = (ini.(hardware).(xbar_row) / k2)%Z
  /\ (0 < 8)%Z
  /\ sum_Z [8; 8; 4]%Z = ini.(layer).(in_channels)
  /\ Forall (fun c => (0 < c)%Z /\ (c * k2 <= ini.(hardware).(xbar_row))%Z) [8; 8; 4]%Z
  /\ Z.of_nat (length [8; 8; 4]%Z)
     = ((ini.(layer).(in_channels) + 8 - 1) / 8)%Z.
Proof.
  intros ini.
  apply (get_module_config_conv_fits ini 8 [8; 8; 4]%Z). reflexivity.
Defined.

(** X4: a convolution that cannot be mapped fails at configuration.  A zero
    kernel size raises the division by zero of [xbar_row / kernel_size^2];
    a kernel whose [kernel_size^2] rows exceed a crossbar of non-negative
    size leaves no channel per partition, and the planner's assertion on
    its base fails. *)
Theorem get_module_config_conv_errors (ini : layer_ini) :
  (ini.(layer).(kernel_size) = 0%Z ->
   get_module_config conv ini = Raise ZeroDivisionError)
  /\ ((0 <= ini.(hardware).(xbar_row) < ini.(layer).(kernel_size) ^ 2)%Z ->
      (0 < ini.(layer).(in_channels))%Z ->
      get_module_config conv ini
      = Raise (AssertionError "base should be greater than 0")).
Proof.
  split.
  - intros Hk. unfold get_module_config. now rewrite Hk.
  - intros Hx Hc. unfold get_module_config. cbv zeta.
    set (k2 := (kernel_size (layer ini) ^ 2)%Z) in *.
    destruct (Z.eqb_spec k2 0) as [|Hk]; [lia|].
    cbn [rbind]. rewrite <- Zdiv_Qdiv, Z.div_small by lia.
    unfold split_by_num.
    destruct (Z.ltb_spec 0 (in_channels (layer ini))); [|lia]. reflexivity.
Qed.

(** A 5x5 kernel on a crossbar of 16 rows, and a kernel of size zero. *)
Lemma get_module_config_conv_errors_witness :
  get_module_config conv
    {| quantize := {| q_input := 8; q_weight := 8; q_output := 8 |};
       hardware := {| xbar_row := 16; cell_bit := 2; dac_bit := 1;
                      adc_bit := 8; point_shift := 0 |};
       layer := {| in_channels := 3; in_features := 0; out_features := 0;
                   kernel_size := 0 |} |}
  = Raise ZeroDivisionError
  /\ get_module_config conv
       {| quantize := {| q_input := 8; q_weight := 8; q_output := 8 |};
          hardware := {| xbar_row := 16; cell_bit := 2; dac_bit := 1;
                         adc_bit := 8; point_shift := 0 |};
          layer := {| in_channels := 3; in_features := 0; out_features := 0;
                      kernel_size := 5 |} |}
     = Raise (AssertionError "base should be greater than 0").
Proof.
  split.
  - apply (proj1 (get_module_config_conv_errors _)). reflexivity.
  - apply (proj2 (get_module_config_conv_errors _)); simpl; lia.
Defined.

(** X5: the partitions of a fully-connected layer: [xbar_row] features per
    partition, every partition between one and [xbar_row] features, the
    partitions cover the input features, and there are
    [ceil(in_features / xbar_row)] of them. *)
Theorem get_module_config_fc_plan (ini : layer_ini) (input_split_num : Z)
    (in_features_list : list Z) :
  get_module_config fc ini = Ok (input_split_num, in_features_list) ->
  input_split_num = ini.(hardware).(xbar_row)
  /\ (0 < ini.(hardware).(xbar_row))%Z
  /\ sum_Z in_features_list = ini.(layer).(in_features)
  /\ Forall (fun c => (0 < c <= ini.(hardware).(xbar_row))%Z) in_features_list
  /\ Z.of_nat (length in_features_list)
     = ((ini.(layer).(in_features) + ini.(hardware).(xbar_row) - 1)
        / ini.(hardware).(xbar_row))%Z.
Proof.
  intros H. unfold get_module_config in H. cbv zeta in H.
  inv_bind H as plan Hplan. inversion H; subst input_split_num in_features_list; clear H.
  destruct (split_by_num_Ok_inv _ _ _ Hplan) as (Hn & Hb & Hsum & Hall).
  pose proof (split_by_num_length _ _ _ Hplan) as Hlen.
  repeat split; assumption.
Qed.

(** Three features on crossbars of two rows. *)
Lemma get_module_config_fc_plan_witness :
  2%Z = example_ini.(hardware).(xbar_row)
  /\ (0 < example_ini.(hardware).(xbar_row))%Z
  /\ sum_Z [2; 1]%Z = example_ini.(layer).(in_features)
  /\ Forall (fun c => (0 < c <= example_ini.(hardware).(xbar_row))%Z) [2; 1]%Z
  /\ Z.of_nat (length [2; 1]%Z)
     = ((example_ini.(layer).(in_features) + example_ini.(hardware).(xbar_row) - 1)
        / example_ini.(hardware).(xbar_row))%Z.
Proof. apply (get_module_config_fc_plan example_ini 2 [2; 1]%Z). reflexivity. Defined.

(** ** The quantizer: levels, error and order *)

(** From one bit on, a threshold other than zero is that of two bits or
    more. *)
Lemma _get_thres_nonzero (bit : Z) :
  (1 <= bit)%Z -> ~ _get_thres bit == 0 -> (2 <= bit)%Z.
Proof.
  intros Hb Ht. destruct (_get_thres_cases bit) as [[H _]|[[_ E]|[H _]]];
    [assumption|contradiction|lia].
Qed.

(** X6: every entry that the quantizer returns is an integer level times
    the step it commits, and the level is within the threshold. *)
Theorem quantize_levels (inputs : Tensor) (bit : Z) (scale : Q)
    (output : Tensor) (row : bit_scale) :
  (1 <= bit)%Z ->
  QuantizeFunction.quantize inputs bit scale = Ok (output, row) ->
  length output = length inputs
  /\ Forall (fun y => exists k : Z,
                 (Z.abs k <= 2 ^ (bit - 1) - 1)%Z /\ y == inject_Z k * snd row)
            output.
Proof.
  intros Hb H. destruct (quantize_Ok_inv _ _ _ _ H) as [Ht Hs].
  rewrite (quantize_Ok inputs _ _ Ht Hs) in H. inversion H; subst output row; clear H.
  split; [apply length_map|].
  apply Forall_forall. intros y Hy. apply in_map_iff in Hy. destruct Hy as (x & <- & _).
  destruct (quantize_level_Z x (scale / _get_thres bit) bit Hb) as (k & Ek & Hk).
  exists k. split; [assumption|]. cbn [snd].
  now rewrite (quantize_entry_level bit scale x Ht Hs), Ek.
Qed.

(** Three entries at four bits on the range 2. *)
Lemma quantize_levels_witness :
  length [8 / 7; 2 / 7; - (14) / 7] = length [1; 1 # 3; - (5)]
  /\ Forall (fun y => exists k : Z,
                 (Z.abs k <= 2 ^ (4 - 1) - 1)%Z
                 /\ y == inject_Z k * snd (4%Z, 2 / _get_thres 4))
            [8 / 7; 2 / 7; - (14) / 7].
Proof.
  apply (quantize_levels [1; 1 # 3; - (5)] 4 2); [lia|].
  vm_compute. reflexivity.
Defined.

Lemma Qmult_bounds (a lo hi s : Q) :
  0 < s -> lo <= a <= hi -> lo * s <= a * s <= hi * s.
Proof. intros Hs [H1 H2]. split; apply Qmult_le_compat_r; lra. Qed.

Lemma Qdiv_bounds (x lo hi s : Q) :
  0 < s -> (lo * s <= x -> lo <= x / s) /\ (x <= hi * s -> x / s <= hi).
Proof.
  intros Hs. split; intros H.
  - apply Qle_shift_div_l; assumption.
  - apply Qle_shift_div_r; assumption.
Qed.

Lemma Z_le_of_Q_lt_succ (a b : Z) : inject_Z a - 1 < inject_Z b -> (a <= b)%Z.
Proof.
  intros H. assert (H' : inject_Z (a - 1) < inject_Z b).
  { unfold Zminus. rewrite inject_Z_plus, inject_Z_opp. change (inject_Z 1) with 1. lra. }
  rewrite <- Zlt_Qlt in H'. lia.
Qed.

Lemma quantize_entry_in_range (bit : Z) (scale x : Q) :
  (2 <= bit)%Z -> 0 < scale ->
  let step := scale / _get_thres bit in
  let y := quantize_entry bit scale x in
  (Qabs x <= scale -> Qabs (y - x) <= step / 2)
  /\ (scale <= x -> y == scale)
  /\ (x <= - scale -> y == - scale).
Proof.
  intros Hb Hs step y.
  destruct (_get_thres_pos bit Hb) as (t & Ht1 & _ & Et).
  assert (Htq : 0 < _get_thres bit) by (rewrite Et; unfold Qlt; simpl; lia).
  assert (Ht0 : ~ _get_thres bit == 0) by lra.
  assert (Hs0 : ~ scale == 0) by lra.
  assert (Hstep : 0 < step) by (apply Qlt_shift_div_l; lra).
  assert (Ey : y == quantize_level x step bit * step)
    by (apply quantize_entry_level; assumption).
  unfold quantize_level in Ey. cbv zeta in Ey.
  set (th := _get_thres bit) in *.
  set (u := x / step) in *.
  assert (Eu : x == u * step) by (unfold u; field; lra).
  assert (Ets : scale == th * step) by (unfold step; field; lra).
  pose proof (round_half_even_error u) as Hr.
  set (r := round_half_even u) in *.
  set (c := clamp (- th) th (inject_Z r)) in *.
  (* the input in units of the step *)
  assert (Hu1 : x <= scale -> u <= th).
  { intros H. apply (proj2 (Qdiv_bounds x 0 th step Hstep)). now rewrite <- Ets. }
  assert (Hu2 : - scale <= x -> - th <= u).
  { intros H. apply (proj1 (Qdiv_bounds x (- th) 0 step Hstep)).
    setoid_replace (- th * step) with (- scale) by (rewrite Ets; ring). exact H. }
  assert (Hu3 : scale <= x -> th <= u).
  { intros H. apply (proj1 (Qdiv_bounds x th 0 step Hstep)). now rewrite <- Ets. }
  assert (Hu4 : x <= - scale -> u <= - th).
  { intros H. apply (proj2 (Qdiv_bounds x 0 (- th) step Hstep)).
    setoid_replace (- th * step) with (- scale) by (rewrite Ets; ring). exact H. }
  assert (Hdiff : y - x == (c - u) * step) by (rewrite Ey, Eu; ring).
  split; [|split].
  - intros Hx. apply Qabs_Qle_condition in Hx. destruct Hx as [Hx1 Hx2].
    specialize (Hu1 Hx2). specialize (Hu2 Hx1).
    assert (Hc : - (1 # 2) <= c - u <= 1 # 2).
    { unfold c. destruct (clamp_cases (- th) th (inject_Z r))
        as [[H E]|[[H [H' E]]|[[H [H' E]]|[H [H' E]]]]]; rewrite E; lra. }
    apply Qabs_Qle_condition. rewrite Hdiff.
    setoid_replace (step / 2) with ((1 # 2) * step) by field.
    setoid_replace (- ((1 # 2) * step)) with (- (1 # 2) * step) by ring.
    exact (Qmult_bounds (c - u) (- (1 # 2)) (1 # 2) step Hstep Hc).
  - intros Hx. specialize (Hu3 Hx).
    assert (Hrt : inject_Z t <= inject_Z r).
    { rewrite <- Zle_Qle. apply Z_le_of_Q_lt_succ. rewrite <- Et. fold th. lra. }
    rewrite <- Et in Hrt. fold th in Hrt.
    assert (Ec : c == th).
    { unfold c. destruct (clamp_cases (- th) th (inject_Z r))
        as [[H E]|[[H [H' E]]|[[H [H' E]]|[H [H' E]]]]]; rewrite E; lra. }
    rewrite Ey. fold c. rewrite Ec, Ets. reflexivity.
  - intros Hx. specialize (Hu4 Hx).
    assert (Hrt : inject_Z r <= inject_Z (- t)).
    { rewrite <- Zle_Qle.
      assert (H : (- - t <= - r)%Z); [|lia].
      apply Z_le_of_Q_lt_succ. rewrite !inject_Z_opp, <- Et. fold th. lra. }
    rewrite inject_Z_opp, <- Et in Hrt. fold th in Hrt.
    assert (Ec : c == - th).
    { unfold c. destruct (clamp_cases (- th) th (inject_Z r))
        as [[H E]|[[H [H' E]]|[[H [H' E]]|[H [H' E]]]]]; rewrite E; lra. }
    rewrite Ey. fold c. rewrite Ec, Ets. ring.
Qed.

(** X7: for a positive range and from one bit on, the quantizer moves an
    entry within the range by at most half a step, and saturates an entry
    beyond the range at the range. *)
Theorem quantize_nearest_level (inputs : Tensor) (bit : Z) (scale : Q)
    (output : Tensor) (row : bit_scale) :
  (1 <= bit)%Z -> 0 < scale ->
  QuantizeFunction.quantize inputs bit scale = Ok (output, row) ->
  Forall2 (fun x y =>
             (Qabs x <= scale -> Qabs (y - x) <= snd row / 2)
             /\ (scale <= x -> y == scale)
             /\ (x <= - scale -> y == - scale))
          inputs output.
Proof.
  intros Hb Hs H. destruct (quantize_Ok_inv _ _ _ _ H) as [Ht Hs0].
  rewrite (quantize_Ok inputs _ _ Ht Hs0) in H. inversion H; subst output row; clear H.
  apply Forall2_map_r. intros x _. cbn [snd].
  apply (quantize_entry_in_range bit scale x); [|assumption].
  now apply _get_thres_nonzero.
Qed.

(** Entries within, at and beyond the range 2 at four bits. *)
Lemma quantize_nearest_level_witness :
  Forall2 (fun x y =>
             (Qabs x <= 2 -> Qabs (y - x) <= snd (4%Z, 2 / _get_thres 4) / 2)
             /\ (2 <= x -> y == 2)
             /\ (x <= - (2) -> y == - (2)))
          [1; 1 # 3; - (5)] [8 / 7; 2 / 7; - (14) / 7].
Proof.
  apply (quantize_nearest_level [1; 1 # 3; - (5)] 4 2); [lia|reflexivity|].
  vm_compute. reflexivity.
Defined.

Lemma quantize_entry_mono (bit : Z) (scale x x' : Q) :
  (2 <= bit)%Z -> 0 < scale -> x <= x' ->
  quantize_entry bit scale x <= quantize_entry bit scale x'.
Proof.
  intros Hb Hs Hxx.
  destruct (_get_thres_pos bit Hb) as (t & Ht1 & _ & Et).
  assert (Htq : 0 < _get_thres bit) by (rewrite Et; unfold Qlt; simpl; lia).
  unfold quantize_entry. set (th := _get_thres bit) in *.
  assert (Hstep : 0 < scale / th) by (apply Qlt_shift_div_l; lra).
  assert (Hinv : 0 < th / scale) by (apply Qlt_shift_div_l; lra).
  assert (Hu : x / (scale / th) <= x' / (scale / th)).
  { apply Qmult_le_compat_r; [assumption|]. apply Qlt_le_weak. now apply Qinv_lt_0_compat. }
  apply round_half_even_mono in Hu.
  apply Qmult_le_compat_r; [|apply Qlt_le_weak; now apply Qinv_lt_0_compat].
  apply clamp_mono. now rewrite <- Zle_Qle.
Qed.

(** X8: for a positive range and from one bit on, the quantizer keeps the
    order of the entries. *)
Theorem quantize_monotone (inputs : Tensor) (bit : Z) (scale : Q)
    (output : Tensor) (row : bit_scale) (i j : nat) (x x' y y' : Q) :
  (1 <= bit)%Z -> 0 < scale ->
  QuantizeFunction.quantize inputs bit scale = Ok (output, row) ->
  nth_error inputs i = Some x -> nth_error inputs j = Some x' ->
  nth_error output i = Some y -> nth_error output j = Some y' ->
  x <= x' -> y <= y'.
Proof.
  intros Hb Hs H Hi Hj Hyi Hyj Hxx.
  destruct (quantize_Ok_inv _ _ _ _ H) as [Ht Hs0].
  rewrite (quantize_Ok inputs _ _ Ht Hs0) in H. inversion H; subst output row; clear H.
  rewrite nth_error_map, Hi in Hyi. rewrite nth_error_map, Hj in Hyj.
  inversion Hyi; subst y. inversion Hyj; subst y'.
  apply quantize_entry_mono; [now apply _get_thres_nonzero|assumption..].
Qed.

(** The entries 1/3 and 1 of the run above. *)
Lemma quantize_monotone_witness : 2 / 7 <= 8 / 7.
Proof.
  apply (quantize_monotone [1; 1 # 3; - (5)] 4 2 [8 / 7; 2 / 7; - (14) / 7]
           (4%Z, 2 / _get_thres 4) 1 0 (1 # 3) 1 (2 / 7) (8 / 7));
    try reflexivity; try lia; try discriminate.
Defined.

Lemma quantize_entry_opp (bit : Z) (scale x : Q) :
  (2 <= bit)%Z -> ~ scale == 0 ->
  quantize_entry bit scale (- x) == - quantize_entry bit scale x
  /\ quantize_entry bit (- scale) x == quantize_entry bit scale x.
Proof.
  intros Hb Hs.
  destruct (_get_thres_pos bit Hb) as (t & Ht1 & _ & Et).
  assert (Htq : 0 < _get_thres bit) by (rewrite Et; unfold Qlt; simpl; lia).
  unfold quantize_entry. set (th := _get_thres bit) in *.
  assert (E1 : round_half_even (- x / (scale / th))
               = (- round_half_even (x / (scale / th)))%Z).
  { rewrite <- round_half_even_opp. apply round_half_even_Proper. field. split; lra. }
  assert (E2 : round_half_even (x / (- scale / th))
               = (- round_half_even (x / (scale / th)))%Z).
  { rewrite <- round_half_even_opp. apply round_half_even_Proper. field. split; lra. }
  rewrite E1, E2, inject_Z_opp, clamp_opp by lra.
  split; field; split; lra.
Qed.

(** X9: from one bit on, the quantizer is odd in its input, and the sign of
    the range does not matter: the opposite inputs give the opposite
    outputs, and the opposite range gives the same outputs and commits the
    opposite step. *)
Theorem quantize_symmetric (inputs : Tensor) (bit : Z) (scale : Q)
    (output : Tensor) (row : bit_scale) :
  (1 <= bit)%Z ->
  QuantizeFunction.quantize inputs bit scale = Ok (output, row) ->
  (exists output',
      QuantizeFunction.quantize (map Qopp inputs) bit scale = Ok (output', row)
      /\ tensor_eq output' (map Qopp output))
  /\ (exists output' row',
         QuantizeFunction.quantize inputs bit (- scale) = Ok (output', row')
         /\ tensor_eq output' output
         /\ fst row' = fst row /\ snd row' == - snd row).
Proof.
  intros Hb H. destruct (quantize_Ok_inv _ _ _ _ H) as [Ht Hs].
  rewrite (quantize_Ok inputs _ _ Ht Hs) in H. inversion H; subst output row; clear H.
  assert (Hb2 : (2 <= bit)%Z) by (now apply _get_thres_nonzero).
  split.
  - eexists. split; [apply quantize_Ok; assumption|].
    rewrite !map_map. apply tensor_eq_map. intros x.
    apply (quantize_entry_opp bit scale x Hb2 Hs).
  - assert (Hs' : ~ - scale == 0) by lra.
    eexists _, _. split; [apply quantize_Ok; assumption|].
    split; [|split].
    + apply tensor_eq_map. intros x. apply (quantize_entry_opp bit scale x Hb2 Hs).
    + reflexivity.
    + cbn [snd]. field. assumption.
Qed.

(** The run above with opposite inputs and with the opposite range. *)
Lemma quantize_symmetric_witness :
  (exists output',
      QuantizeFunction.quantize (map Qopp [1; 1 # 3; - (5)]) 4 2
      = Ok (output', (4%Z, 2 / _get_thres 4))
      /\ tensor_eq output' (map Qopp [8 / 7; 2 / 7; - (14) / 7]))
  /\ (exists output' row',
         QuantizeFunction.quantize [1; 1 # 3; - (5)] 4 (- (2)) = Ok (output', row')
         /\ tensor_eq output' [8 / 7; 2 / 7; - (14) / 7]
         /\ fst row' = fst (4%Z, 2 / _get_thres 4)
         /\ snd row' == - snd (4%Z, 2 / _get_thres 4)).
Proof.
  apply (quantize_symmetric [1; 1 # 3; - (5)] 4 2); [lia|].
  vm_compute. reflexivity.
Defined.

(** ** The quantizer with its scale estimation *)

Section QuantizeModes.
Context {T : Torch}.

(** X10: an activation quantizer that never ran in training.  In phase
    test, on a row that still holds the sentinel -1, the range is minus the
    threshold: from two bits on the quantizer returns the inputs rounded to
    integers and clamped to the threshold, and the step it commits is the
    sentinel again. *)
Theorem Quantize_test_on_sentinel (inputs : Tensor) (cfg : quantize_cfg) :
  cfg.(mode) = "activation" -> cfg.(phase) = Some "test" -> (2 <= cfg.(bit))%Z ->
  exists output row,
    Quantize inputs cfg (cfg.(bit), - (1)) = Ok (output, row)
    /\ tensor_eq output
         (torch_clamp (torch_round inputs) (- _get_thres cfg.(bit)) (_get_thres cfg.(bit)))
    /\ fst row = cfg.(bit) /\ snd row == - (1).
Proof.
  intros Hm Hp Hb. unfold Quantize, QuantizeFunction.forward, QuantizeFunction.get_scale.
  rewrite Hm, Hp. simpl.
  destruct (_get_thres_pos (bit cfg) Hb) as (t & Ht1 & _ & Et).
  set (th := _get_thres (bit cfg)) in *.
  assert (Htq : 0 < th) by (rewrite Et; unfold Qlt; simpl; lia).
  assert (Ht0 : ~ th == 0) by lra.
  assert (Hs0 : ~ - (1) * th == 0) by lra.
  rewrite (quantize_Ok inputs (bit cfg) _ Ht0 Hs0). fold th.
  eexists _, _. split; [reflexivity|]. split; [|split].
  - unfold torch_clamp, torch_round. rewrite map_map. apply tensor_eq_map. intros x.
    assert (E1 : quantize_entry (bit cfg) (- (1) * th) x
                 == quantize_entry (bit cfg) (- th) x).
    { apply quantize_entry_scale_eq. ring. }
    rewrite E1, (proj2 (quantize_entry_opp (bit cfg) th x Hb Ht0)).
    unfold quantize_entry. fold th.
    assert (E2 : round_half_even (x / (th / th)) = round_half_even x).
    { apply round_half_even_Proper. field. assumption. }
    rewrite E2. field. assumption.
  - reflexivity.
  - cbn [snd]. field. assumption.
Qed.

Lemma Quantize_weight_Ok_inv (inputs : Tensor) (cfg : quantize_cfg)
    (last : bit_scale) (output : Tensor) (row : bit_scale) :
  cfg.(mode) = "weight" ->
  Quantize inputs cfg last = Ok (output, row) ->
  exists M,
    torch_max (torch_abs inputs) = Ok M
    /\ 0 < M
    /\ ~ _get_thres cfg.(bit) == 0
    /\ output = map (quantize_entry cfg.(bit) M) inputs
    /\ row = (cfg.(bit), M / _get_thres cfg.(bit)).
Proof.
  intros Hm H. unfold Quantize, QuantizeFunction.forward in H.
  unfold QuantizeFunction.get_scale in H. rewrite Hm in H. simpl in H.
  inv_bind H as M HM.
  destruct (quantize_Ok_inv _ _ _ _ H) as [Ht HM0].
  rewrite (quantize_Ok inputs _ _ Ht HM0) in H. inversion H; subst output row; clear H.
  destruct (torch_max_spec _ _ HM) as [Hle Hex].
  assert (HMpos : 0 < M).
  { apply Exists_exists in Hex. destruct Hex as (a & Ha & E).
    unfold torch_abs in Ha. apply in_map_iff in Ha. destruct Ha as (x & <- & _).
    pose proof (Qabs_nonneg x). lra. }
  exists M. repeat split; assumption.
Qed.

(** X11: the weight quantizer keeps the largest magnitude.  In mode weight
    the range is the largest magnitude of the inputs, it is positive
    whenever the call returns, the step committed is that range over the
    threshold, no output exceeds the range, and some output attains it. *)
Theorem Quantize_weight_range (inputs : Tensor) (cfg : quantize_cfg)
    (last : bit_scale) (output : Tensor) (row : bit_scale) :
  cfg.(mode) = "weight" ->
  Quantize inputs cfg last = Ok (output, row) ->
  exists M,
    torch_max (torch_abs inputs) = Ok M
    /\ 0 < M
    /\ row = (cfg.(bit), M / _get_thres cfg.(bit))
    /\ Forall (fun y => Qabs y <= M) output
    /\ Exists (fun y => Qabs y == M) output.
Proof.
  intros Hm H.
  destruct (Quantize_weight_Ok_inv inputs cfg last output row Hm H)
    as (M & HM & HMpos & Ht & -> & ->).
  assert (HM0 : ~ M == 0) by lra.
  destruct (torch_max_spec _ _ HM) as [Hle Hex].
  exists M. split; [exact HM|]. split; [assumption|]. split; [reflexivity|]. split.
  - apply Forall_forall. intros y Hy. apply in_map_iff in Hy. destruct Hy as (x & <- & _).
    now apply quantize_entry_abs_le.
  - apply Exists_exists in Hex. destruct Hex as (a & Ha & E).
    unfold torch_abs in Ha. apply in_map_iff in Ha. destruct Ha as (x & <- & Hx).
    apply Exists_exists. exists (quantize_entry (bit cfg) M x).
    split; [now apply in_map|].
    apply quantize_entry_extreme; [assumption..|now symmetry].
Qed.

(** X12: the weight quantizer on weights without a range.  In mode weight
    an empty tensor raises the error of [torch.max], and a tensor whose
    entries are all zero raises the division by zero, whatever the bit
    width; nothing is committed. *)
Theorem Quantize_weight_errors (inputs : Tensor) (cfg : quantize_cfg) (last : bit_scale) :
  cfg.(mode) = "weight" ->
  (inputs = [] -> Quantize inputs cfg last = Raise RuntimeError)
  /\ (inputs <> [] -> Forall (fun x => x == 0) inputs ->
      Quantize inputs cfg last = Raise ZeroDivisionError).
Proof.
  intros Hm. unfold Quantize, QuantizeFunction.forward, QuantizeFunction.get_scale.
  rewrite Hm. simpl. split.
  - intros ->. reflexivity.
  - intros Hne Hz.
    destruct (torch_max (torch_abs inputs)) as [M|e] eqn:HM.
    + destruct (torch_max_spec _ _ HM) as [_ Hex].
      assert (EM : M == 0).
      { apply Exists_exists in Hex. destruct Hex as (a & Ha & E).
        unfold torch_abs in Ha. apply in_map_iff in Ha. destruct Ha as (x & <- & Hx).
        rewrite Forall_forall in Hz. rewrite E, (Hz x Hx). reflexivity. }
      simpl. unfold QuantizeFunction.quantize. cbv zeta.
      destruct (Qeq_bool (_get_thres (bit cfg)) 0); [reflexivity|].
      simpl. apply Qeq_bool_iff in EM. now rewrite EM.
    + destruct inputs; [contradiction|discriminate].
Qed.

End QuantizeModes.

(** Entries rounded to even, to the nearest, and clamped to 7. *)
Lemma Quantize_test_on_sentinel_witness :
  exists output row,
    Quantize (T := fc_torch 3) [5 # 2; 1 # 3; - (20)] test_cfg (test_cfg.(bit), - (1))
    = Ok (output, row)
    /\ tensor_eq output
         (torch_clamp (torch_round [5 # 2; 1 # 3; - (20)])
                      (- _get_thres test_cfg.(bit)) (_get_thres test_cfg.(bit)))
    /\ fst row = test_cfg.(bit) /\ snd row == - (1).
Proof.
  apply (Quantize_test_on_sentinel (T := fc_torch 3) [5 # 2; 1 # 3; - (20)] test_cfg);
    [reflexivity|reflexivity|simpl; lia].
Defined.

(** [example_tensor] has the largest magnitude 5. *)
Lemma Quantize_weight_range_witness :
  exists M,
    torch_max (torch_abs example_tensor) = Ok M
    /\ 0 < M
    /\ snd example_quantized_weight = (weight_cfg.(bit), M / _get_thres weight_cfg.(bit))
    /\ Forall (fun y => Qabs y <= M) (fst example_quantized_weight)
    /\ Exists (fun y => Qabs y == M) (fst example_quantized_weight).
Proof.
  apply (Quantize_weight_range (T := fc_torch 3) example_tensor weight_cfg (4%Z, - (1))
           (fst example_quantized_weight) (snd example_quantized_weight));
    [reflexivity|vm_compute; reflexivity].
Defined.

(** No weights, and two zero weights. *)
Lemma Quantize_weight_errors_witness :
  Quantize (T := fc_torch 3) [] weight_cfg (4%Z, - (1)) = Raise RuntimeError
  /\ Quantize (T := fc_torch 3) [0; 0] weight_cfg (4%Z, - (1)) = Raise ZeroDivisionError.
Proof.
  split.
  - apply (proj1 (Quantize_weight_errors (T := fc_torch 3) [] weight_cfg (4%Z, - (1))
                    eq_refl)).
    reflexivity.
  - apply (proj2 (Quantize_weight_errors (T := fc_torch 3) [0; 0] weight_cfg (4%Z, - (1))
                    eq_refl)).
    + discriminate.
    + repeat constructor.
Defined.

(** The quantized [example_tensor], quantized again in mode weight. *)
Lemma Quantize_weight_idempotent_witness :
  exists output' row',
    Quantize (T := fc_torch 3) (fst example_quantized_weight) weight_cfg
             (snd example_quantized_weight)
    = Ok (output', row')
    /\ tensor_eq output' (fst example_quantized_weight)
    /\ fst row' = fst (snd example_quantized_weight)
    /\ snd row' == snd (snd example_quantized_weight).
Proof.
  apply (Quantize_weight_idempotent (T := fc_torch 3) example_tensor weight_cfg
           (4%Z, - (1)) (snd example_quantized_weight)
           (fst example_quantized_weight) (snd example_quantized_weight));
    [reflexivity|vm_compute; reflexivity].
Defined.

(** The same in phase test, on the row that the first pass committed. *)
Lemma Quantize_test_idempotent_witness :
  exists output' row',
    Quantize (T := fc_torch 3) (fst example_quantized_test) test_cfg
             (snd example_quantized_test)
    = Ok (output', row')
    /\ tensor_eq output' (fst example_quantized_test)
    /\ fst row' = fst (snd example_quantized_test)
    /\ snd row' == snd (snd example_quantized_test).
Proof.
  apply (Quantize_test_idempotent (T := fc_torch 3) example_tensor test_cfg
           (4%Z, 2 # 7) (fst example_quantized_test) (snd example_quantized_test));
    [reflexivity|reflexivity|vm_compute; reflexivity].
Defined.

(** ** Digits of the committed step *)

Lemma split_by_bit_Ok_inv (tensor : Tensor) (scale : Q) (bit_width bit_split : Z)
    (slices : list Tensor) :
  split_by_bit tensor scale bit_width bit_split = Ok slices ->
  ~ scale == 0
  /\ exists c, _get_cycle bit_width bit_split = Ok c
               /\ length slices = Z.to_nat c
               /\ Forall (fun sl => length sl = length tensor) slices.
Proof.
  intros H. pose proof H as H'. unfold split_by_bit in H'.
  inv_bind H' as c Hc. cbv zeta in H'. inv_bind H' as scaled Hscaled.
  destruct (Qeq_bool scale 0) eqn:E; [discriminate|].
  assert (Hs : ~ scale == 0) by (intros E0; apply Qeq_bool_iff in E0; congruence).
  split; [assumption|]. exists c. split; [assumption|].
  rewrite (split_by_bit_entries tensor scale bit_width bit_split c Hs Hc) in H.
  inversion H; subst slices; clear H.
  split; [now rewrite length_map, range_length|].
  apply Forall_forall. intros sl Hsl. apply in_map_iff in Hsl.
  destruct Hsl as (i & <- & _). apply length_map.
Qed.

(** The digits at one entry recombine to the level of that entry. *)
Lemma split_by_bit_column (tensor : Tensor) (scale : Q) (bit_width bit_split : Z)
    (slices : list Tensor) (k : nat) (x : Q) :
  (1 <= bit_width)%Z -> (1 <= bit_split)%Z ->
  split_by_bit tensor scale bit_width bit_split = Ok slices ->
  nth_error tensor k = Some x ->
  positional_sum bit_split (map (fun sl => nth k sl 0) slices)
  == quantize_level x scale bit_width.
Proof.
  intros Hb Hc H Hk.
  destruct (split_by_bit_Ok_inv _ _ _ _ _ H) as (Hs & c & Ecyc & _ & _).
  destruct (_get_cycle_Ok bit_width bit_split Hb Hc) as (c' & Ecyc' & _ & Hc0 & Hcover).
  assert (c' = c) by congruence. subst c'.
  rewrite (split_by_bit_entries tensor scale bit_width bit_split c Hs Ecyc) in H.
  inversion H; subst slices; clear H.
  destruct (quantize_level_Z x scale bit_width Hb) as (z & Ez & Hz).
  assert (Hpow : (2 ^ (bit_width - 1) <= 2 ^ (bit_split * c))%Z)
    by (apply Z.pow_le_mono_r; lia).
  rewrite map_map.
  rewrite (map_ext _ (slice_entry bit_split c (quantize_level x scale bit_width))).
  - apply (positional_sum_slices bit_split c z); (assumption || lia).
  - intros i. now rewrite (nth_map_entry _ tensor k x Hk).
Qed.

(** X15: the digits of the committed step spell the quantized value.  When
    the quantizer returns, [split_by_bit] on the same inputs with the bit
    width and the step of the committed row returns slices, and every
    quantized entry is the step times the positional sum of its digits. *)
Theorem quantize_split_by_bit (inputs : Tensor) (bit : Z) (scale : Q) (cell_bit : Z)
    (output : Tensor) (row : bit_scale) :
  (1 <= bit)%Z -> (1 <= cell_bit)%Z ->
  QuantizeFunction.quantize inputs bit scale = Ok (output, row) ->
  exists slices,
    split_by_bit inputs (snd row) (fst row) cell_bit = Ok slices
    /\ forall k y, nth_error output k = Some y ->
         y == snd row * positional_sum cell_bit (map (fun sl => nth k sl 0) slices).
Proof.
  intros Hb Hc H. destruct (quantize_Ok_inv _ _ _ _ H) as [Ht Hs].
  rewrite (quantize_Ok inputs _ _ Ht Hs) in H. inversion H; subst output row; clear H.
  cbn [fst snd].
  assert (Hstep : ~ scale / _get_thres bit == 0).
  { intros E. apply Hs. rewrite <- (Qmult_div_r scale (_get_thres bit) Ht).
    rewrite E. ring. }
  destruct (_get_cycle_Ok bit cell_bit Hb Hc) as (c & Ecyc & _).
  exists (map (fun i => map (fun x => slice_entry cell_bit c
                                (quantize_level x (scale / _get_thres bit) bit) i) inputs)
              (range c)).
  split; [apply split_by_bit_entries; assumption|].
  intros k y Hy. rewrite nth_error_map in Hy.
  destruct (nth_error inputs k) as [x|] eqn:Hx; [|discriminate].
  inversion Hy; subst y; clear Hy.
  rewrite (split_by_bit_column inputs (scale / _get_thres bit) bit cell_bit _ k x Hb Hc
             (split_by_bit_entries _ _ _ _ c Hstep Ecyc) Hx).
  rewrite (quantize_entry_level bit scale x Ht Hs). ring.
Qed.

(** [example_tensor] at four bits on the range 2, in cells of two bits. *)
Lemma quantize_split_by_bit_witness :
  exists slices,
    split_by_bit example_tensor (snd (4%Z, 2 / _get_thres 4)) (fst (4%Z, 2 / _get_thres 4)) 2
    = Ok slices
    /\ forall k y, nth_error [8 / 7; 2 / 7; - (14) / 7] k = Some y ->
         y == snd (4%Z, 2 / _get_thres 4)
              * positional_sum 2 (map (fun sl => nth k sl 0) slices).
Proof.
  apply (quantize_split_by_bit example_tensor 4 2 2); [lia|lia|].
  vm_compute. reflexivity.
Defined.

(** ** Hardware inference *)

Lemma traverse_Ok_all {A B} (f : A -> result B) (l : list A) (bs : list B) (a : A) :
  traverse f l = Ok bs -> In a l -> exists b, f a = Ok b.
Proof.
  revert bs. induction l as [|a0 l IH]; intros bs H Ha; [contradiction|].
  simpl in H. inv_bind H as b Hb. inv_bind H as bs' Hbs.
  destruct Ha as [<-|Ha]; [now exists b|]. now apply (IH bs').
Qed.

Lemma enumerate_In_from {A} (l : list A) (start n : nat) (a : A) :
  nth_error l n = Some a -> In ((start + n)%nat, a) (combine (seq start (length l)) l).
Proof.
  revert start n. induction l as [|a0 l IH]; intros start n H.
  - destruct n; discriminate.
  - destruct n as [|n]; simpl in *.
    + inversion H; subst. left. f_equal. lia.
    + right. replace (start + S n)%nat with (S start + n)%nat by lia. now apply IH.
Qed.

Lemma enumerate_In {A} (l : list A) (n : nat) (a : A) :
  nth_error l n = Some a -> In (n, a) (combine (seq 0 (length l)) l).
Proof. apply (enumerate_In_from l 0 n a). Qed.

Section HardwareInferenceProperties.
Context {T : Torch}.

(** X16: what a hardware inference that returns has met.  The layer is in
    evaluation, there is at least one sub-operation and no more of them than
    pieces of the input, both cycle counts are at least one, every
    sub-operation has a weight digit for each weight cycle, and the
    committed output range is not zero. *)
Theorem set_weights_forward_requires (self : BaseWeightLayer) (inputs : Tensor)
    (quantize_weight_bit_list : list (list Tensor)) (output : Tensor) :
  set_weights_forward self inputs quantize_weight_bit_list = Ok output ->
  self.(training) = false
  /\ quantize_weight_bit_list <> []
  /\ ~ snd self.(bit_scale_list).(output_row)
       * _get_thres (fst self.(bit_scale_list).(output_row)) == 0
  /\ exists input_list weight_cycle input_cycle,
       torch_split inputs self.(input_split_num) = Ok input_list
       /\ (length quantize_weight_bit_list <= length input_list)%nat
       /\ _get_cycle (fst self.(bit_scale_list).(weight_row))
                     self.(ini).(hardware).(cell_bit) = Ok weight_cycle
       /\ (1 <= weight_cycle)%Z
       /\ _get_cycle (fst self.(bit_scale_list).(input_row))
                     self.(ini).(hardware).(dac_bit) = Ok input_cycle
       /\ (1 <= input_cycle)%Z
       /\ Forall (fun digits => (Z.to_nat weight_cycle <= length digits)%nat)
                 quantize_weight_bit_list.
Proof.
  intros H. unfold set_weights_forward in H.
  destruct (training self) eqn:Etr; [discriminate|]. cbn [negb] in H.
  inv_bind H as input_list Hsplit. inv_bind H as sc Hsc.
  inv_bind H as output_list Hloop. inv_bind H as accumulated Hsum.
  cbv zeta in H. inv_bind H as inv_step Hinv.
  destruct (get_adc_scales_cycles self sc Hsc) as [Hwc Hic].
  pose proof (module_loop_length self sc input_list _ _ Hloop) as Hlen.
  assert (Hne : output_list <> []) by (intros ->; discriminate).
  assert (Hpos : (0 < length output_list)%nat)
    by (destruct output_list; [contradiction|simpl; lia]).
  assert (Hn : (0 < length quantize_weight_bit_list)%nat) by nia.
  assert (Hicn : (0 < Z.to_nat sc.(input_cycle))%nat) by nia.
  assert (Hwcn : (0 < Z.to_nat sc.(weight_cycle))%nat) by nia.
  assert (Hout : ~ snd self.(bit_scale_list).(output_row)
                   * _get_thres (fst self.(bit_scale_list).(output_row)) == 0).
  { unfold get_adc_scales in Hsc. cbv zeta in Hsc.
    inv_bind Hsc as wc Hwc'. inv_bind Hsc as ic Hic'.
    inversion Hsc; subst sc; clear Hsc. cbn [output_scale] in Hinv.
    destruct (Qeq_bool _ 0) eqn:E; [discriminate|].
    intros E0. apply Qeq_bool_iff in E0. congruence. }
  split; [reflexivity|]. split; [now destruct quantize_weight_bit_list|].
  split; [assumption|].
  exists input_list, sc.(weight_cycle), sc.(input_cycle).
  split; [assumption|].
  unfold module_loop in Hloop. inv_bind Hloop as per_module Hper.
  assert (Hall : forall n digits,
             nth_error quantize_weight_bit_list n = Some digits ->
             (n < length input_list)%nat
             /\ (Z.to_nat sc.(weight_cycle) <= length digits)%nat).
  { intros n digits Hn'.
    destruct (traverse_Ok_all _ _ _ (n, digits) Hper (enumerate_In _ _ _ Hn'))
      as (terms & Hterms).
    cbn [fst snd] in Hterms. cbv zeta in Hterms.
    inv_bind Hterms as x Hx. inv_bind Hterms as input_digits Hdig.
    split; [apply nth_error_Some; rewrite (index_Ok _ _ _ Hx); discriminate|].
    unfold digit_pair_loop in Hterms. inv_bind Hterms as rows Hrows.
    assert (Hi0 : In 0%Z (range sc.(input_cycle))) by (apply range_In; lia).
    destruct (traverse_Ok_all _ _ _ 0%Z Hrows Hi0) as (row & Hrow).
    destruct (Nat.le_gt_cases (Z.to_nat sc.(weight_cycle)) (length digits))
      as [Hle|Hgt]; [assumption|].
    assert (Hj : In (Z.of_nat (length digits)) (range sc.(weight_cycle)))
      by (apply range_In; lia).
    destruct (traverse_Ok_all _ _ _ _ Hrow Hj) as (t & Ht).
    inv_bind Ht as a Ha. inv_bind Ht as w Hw.
    apply index_Ok in Hw. rewrite Nat2Z.id in Hw.
    assert (nth_error digits (length digits) = None) by (apply nth_error_None; lia).
    congruence. }
  split.
  { destruct (nth_error quantize_weight_bit_list
                (length quantize_weight_bit_list - 1)) as [digits|] eqn:E.
    - destruct (Hall _ _ E). lia.
    - apply nth_error_None in E. lia. }
  split; [assumption|]. split; [lia|]. split; [assumption|]. split; [lia|].
  apply Forall_forall. intros digits Hd. apply In_nth_error in Hd.
  destruct Hd as (n & Hn'). now destruct (Hall n digits Hn').
Qed.

(** X17: the value of a hardware inference lies on the grid of the output
    row.  From one output bit on, every entry returned is an integer level
    within the threshold of the output bit width times the committed output
    step. *)
Theorem set_weights_forward_levels (self : BaseWeightLayer) (inputs : Tensor)
    (quantize_weight_bit_list : list (list Tensor)) (output : Tensor) :
  (1 <= fst self.(bit_scale_list).(output_row))%Z ->
  set_weights_forward self inputs quantize_weight_bit_list = Ok output ->
  Forall (fun y => exists k : Z,
            (Z.abs k <= 2 ^ (fst self.(bit_scale_list).(output_row) - 1) - 1)%Z
            /\ y == inject_Z k * snd self.(bit_scale_list).(output_row))
         output.
Proof.
  intros Hb H. unfold set_weights_forward in H.
  destruct (negb (training self)); [|discriminate].
  inv_bind H as input_list Hsplit. inv_bind H as sc Hsc.
  inv_bind H as output_list Hloop. inv_bind H as accumulated Hsum.
  cbv zeta in H. inv_bind H as inv_step Hinv.
  unfold get_adc_scales in Hsc. cbv zeta in Hsc.
  inv_bind Hsc as wc Hwc'. inv_bind Hsc as ic Hic'.
  inversion Hsc; subst sc; clear Hsc. cbn [output_scale] in Hinv.
  destruct (Qeq_bool _ 0) eqn:E; [discriminate|].
  assert (Hos : ~ snd self.(bit_scale_list).(output_row)
                  * _get_thres (fst self.(bit_scale_list).(output_row)) == 0).
  { intros E0. apply Qeq_bool_iff in E0. congruence. }
  inversion Hinv; subst inv_step; clear Hinv.
  inversion H; subst output; clear H.
  set (step := snd self.(bit_scale_list).(output_row)) in *.
  set (ob := fst self.(bit_scale_list).(output_row)) in *.
  pose proof (_get_thres_Z ob Hb) as Eth.
  assert (Ht0 : ~ _get_thres ob == 0) by (intros E0; apply Hos; rewrite E0; ring).
  assert (Hs0 : ~ step == 0) by (intros E0; apply Hos; rewrite E0; ring).
  assert (Hb2 : (2 <= ob)%Z) by (apply _get_thres_nonzero; assumption).
  destruct (_get_thres_pos ob Hb2) as (t & Ht1 & Et & _).
  unfold tensor_div, torch_clamp, torch_round, tensor_mul. rewrite !map_map.
  apply Forall_forall. intros y Hy. apply in_map_iff in Hy. destruct Hy as (x & <- & _).
  set (r := round_half_even (x * _get_thres ob)).
  exists (Z.min (Z.max r (- t)) t). split; [rewrite <- Et; lia|].
  assert (Ec : clamp (- _get_thres ob) (_get_thres ob) (inject_Z r)
               == inject_Z (Z.min (Z.max r (- t)) t)).
  { rewrite <- clamp_inject_Z. rewrite Eth, <- Et.
    apply clamp_Proper; try reflexivity. }
  rewrite Ec. field. split; assumption.
Qed.

End HardwareInferenceProperties.

(** The worked layer on the input [1; 2; 3]. *)
Lemma set_weights_forward_requires_witness :
  example_layer.(training) = false
  /\ example_weight_digits <> []
  /\ ~ snd example_layer.(bit_scale_list).(output_row)
       * _get_thres (fst example_layer.(bit_scale_list).(output_row)) == 0
  /\ exists input_list weight_cycle input_cycle,
       torch_split (Torch := fc_torch 3) example_inputs example_layer.(input_split_num)
       = Ok input_list
       /\ (length example_weight_digits <= length input_list)%nat
       /\ _get_cycle (fst example_layer.(bit_scale_list).(weight_row))
                     example_layer.(ini).(hardware).(cell_bit) = Ok weight_cycle
       /\ (1 <= weight_cycle)%Z
       /\ _get_cycle (fst example_layer.(bit_scale_list).(input_row))
                     example_layer.(ini).(hardware).(dac_bit) = Ok input_cycle
       /\ (1 <= input_cycle)%Z
       /\ Forall (fun digits => (Z.to_nat weight_cycle <= length digits)%nat)
                 example_weight_digits.
Proof.
  apply (set_weights_forward_requires (T := fc_torch 3) example_layer
           example_inputs example_weight_digits example_output).
  vm_compute. reflexivity.
Defined.

Lemma set_weights_forward_levels_witness :
  Forall (fun y => exists k : Z,
            (Z.abs k <= 2 ^ (fst example_layer.(bit_scale_list).(output_row) - 1) - 1)%Z
            /\ y == inject_Z k * snd example_layer.(bit_scale_list).(output_row))
         example_output.
Proof.
  apply (set_weights_forward_levels (T := fc_torch 3) example_layer
           example_inputs example_weight_digits example_output).
  - vm_compute. discriminate.
  - vm_compute. reflexivity.
Defined.

Lemma traverse_Forall2 {A B} (f : A -> result B) (l : list A) (bs : list B) :
  traverse f l = Ok bs -> Forall2 (fun a b => f a = Ok b) l bs.
Proof.
  revert bs. induction l as [|a l IH]; intros bs H; simpl in H.
  - inversion H. constructor.
  - inv_bind H as b Hb. inv_bind H as bs' Hbs. inversion H; subst bs; clear H.
    constructor; [assumption|now apply IH].
Qed.

Lemma traverse_total {A B} (f : A -> result B) (l : list A) :
  (forall a, In a l -> exists b, f a = Ok b) -> exists bs, traverse f l = Ok bs.
Proof.
  induction l as [|a l IH]; intros H; simpl.
  - now exists [].
  - destruct (H a (or_introl eq_refl)) as (b & Hb).
    destruct IH as (bs & Hbs); [intros a' Ha'; apply H; now right|].
    exists (b :: bs). now rewrite Hb, Hbs.
Qed.

Lemma split_by_bit_total (tensor : Tensor) (scale : Q) (bit_width bit_split : Z) :
  (1 <= bit_width)%Z -> (1 <= bit_split)%Z -> ~ scale == 0 ->
  exists slices, split_by_bit tensor scale bit_width bit_split = Ok slices.
Proof.
  intros Hb Hc Hs. destruct (_get_cycle_Ok bit_width bit_split Hb Hc) as (c & Ecyc & _).
  eexists. apply (split_by_bit_entries tensor scale bit_width bit_split c Hs Ecyc).
Qed.

Section HardwareDigits.
Context {T : Torch}.

(** X18: the readouts of the converter are codes of [adc_bit] bits.  From
    one bit on, every entry of a treated partial sum is an integer code
    within the threshold of [adc_bit], divided by the transfer scale and the
    power of two of its digit position; the shape is that of the raw sum. *)
Theorem adc_readout_codes (self : BaseWeightLayer) (sc : adc_scales) (i j : Z)
    (raw tmp : Tensor) :
  (1 <= self.(ini).(hardware).(adc_bit))%Z ->
  get_adc_scales self = Ok sc ->
  adc_readout self.(ini).(hardware) sc i j raw = Ok tmp ->
  let hw := self.(ini).(hardware) in
  length tmp = length raw
  /\ Forall (fun y => exists code : Z,
               (Z.abs code <= 2 ^ (hw.(adc_bit) - 1) - 1)%Z
               /\ y == inject_Z code
                       / (2 ^ (hw.(point_shift) + hw.(adc_bit) - 1)
                          * 2 ^ ((sc.(input_cycle) - 1 - i) * hw.(dac_bit)
                                 + (sc.(weight_cycle) - 1 - j) * hw.(cell_bit))))
            tmp.
Proof.
  intros Hq Hsc H hw. change (1 <= adc_bit hw)%Z in Hq.
  rewrite (adc_readout_spec self sc i j raw Hsc) in H.
  destruct (Qeq_bool _ 0); [discriminate|]. inversion H; subst tmp; clear H.
  split; [apply length_map|].
  apply Forall_forall. intros y Hy. apply in_map_iff in Hy. destruct Hy as (x & <- & _).
  unfold spec_partial_sum. cbv zeta. fold hw.
  pose proof (_get_thres_Z (adc_bit hw) Hq) as Eth.
  set (t := (2 ^ (adc_bit hw - 1) - 1)%Z) in *.
  assert (Ht : (0 <= t)%Z).
  { unfold t. assert (0 < 2 ^ (adc_bit hw - 1))%Z by (apply Z.pow_pos_nonneg; lia). lia. }
  match goal with
  | |- context [inject_Z (round_half_even ?e)] => set (r := round_half_even e)
  end.
  exists (Z.min (Z.max r (- t)) t). split; [fold t; clearbody t r; lia|].
  assert (Ec : clamp (- _get_thres (adc_bit hw)) (_get_thres (adc_bit hw)) (inject_Z r)
               == inject_Z (Z.min (Z.max r (- t)) t)).
  { rewrite <- clamp_inject_Z. rewrite Eth.
    apply clamp_Proper; try reflexivity. }
  rewrite Ec. reflexivity.
Qed.

(** X19: the weight digits of a layer.  With a weight bit width and a cell
    width of at least one and a weight step other than zero,
    [get_quantize_weight_bit_list] returns, for every sub-operation, as
    many slices as there are weight cycles, each of the shape of the
    weight, and at every entry the slices recombine by position to the
    level of that weight entry. *)
Theorem get_quantize_weight_bit_list_digits (self : BaseWeightLayer) :
  let weight_bit_width := fst self.(bit_scale_list).(weight_row) in
  let weight_scale := snd self.(bit_scale_list).(weight_row) in
  let cell_bit := self.(ini).(hardware).(cell_bit) in
  (1 <= weight_bit_width)%Z -> (1 <= cell_bit)%Z -> ~ weight_scale == 0 ->
  exists quantize_weight_bit_list weight_cycle,
    get_quantize_weight_bit_list self = Ok quantize_weight_bit_list
    /\ _get_cycle weight_bit_width cell_bit = Ok weight_cycle
    /\ Forall2
         (fun weight digits =>
            length digits = Z.to_nat weight_cycle
            /\ Forall (fun slice => length slice = length weight) digits
            /\ forall k x, nth_error weight k = Some x ->
                 positional_sum cell_bit (map (fun slice => nth k slice 0) digits)
                 == quantize_level x weight_scale weight_bit_width)
         self.(layer_list) quantize_weight_bit_list.
Proof.
  intros wb ws cb Hb Hc Hs.
  destruct (_get_cycle_Ok wb cb Hb Hc) as (c & Ecyc & _).
  destruct (traverse_total (fun l => split_by_bit l ws wb cb) self.(layer_list))
    as (l & Hl).
  { intros w _. now apply split_by_bit_total. }
  exists l, c. split; [exact Hl|]. split; [exact Ecyc|].
  apply traverse_Forall2 in Hl. revert Hl. apply Forall2_impl.
  intros w digits Hd.
  destruct (split_by_bit_Ok_inv _ _ _ _ _ Hd) as (_ & c' & Ec' & Hlen & Hshape).
  assert (c' = c) by congruence. subst c'.
  split; [assumption|]. split; [assumption|].
  intros k x Hk. now apply (split_by_bit_column w ws wb cb digits k x).
Qed.

End HardwareDigits.

(** The readout of the raw sums 3, -40 and 1/2 at the first digit pair of
    the worked layer: the codes 19, -127 and 3 over 512. *)
Lemma adc_readout_codes_witness :
  length example_readout = length example_raw
  /\ Forall (fun y => exists code : Z,
               (Z.abs code <= 2 ^ (example_ini.(hardware).(adc_bit) - 1) - 1)%Z
               /\ y == inject_Z code
                       / (2 ^ (example_ini.(hardware).(point_shift)
                               + example_ini.(hardware).(adc_bit) - 1)
                          * 2 ^ ((example_adc_scales.(input_cycle) - 1 - 0)
                                 * example_ini.(hardware).(dac_bit)
                                 + (example_adc_scales.(weight_cycle) - 1 - 0)
                                   * example_ini.(hardware).(cell_bit))))
            example_readout.
Proof.
  apply (adc_readout_codes example_layer example_adc_scales 0 0 example_raw).
  - vm_compute. discriminate.
  - vm_compute. reflexivity.
  - vm_compute. reflexivity.
Defined.

Lemma get_quantize_weight_bit_list_digits_witness :
  exists quantize_weight_bit_list weight_cycle,
    get_quantize_weight_bit_list example_layer = Ok quantize_weight_bit_list
    /\ _get_cycle 4 2 = Ok weight_cycle
    /\ Forall2
         (fun weight digits =>
            length digits = Z.to_nat weight_cycle
            /\ Forall (fun slice => length slice = length weight) digits
            /\ forall k x, nth_error weight k = Some x ->
                 positional_sum 2 (map (fun slice => nth k slice 0) digits)
                 == quantize_level x (1 # 7) 4)
         example_weights quantize_weight_bit_list.
Proof.
  apply (get_quantize_weight_bit_list_digits example_layer).
  - vm_compute. discriminate.
  - vm_compute. discriminate.
  - vm_compute. discriminate.
Defined.

(** ** The modes of a forward call *)

Section ForwardModes.
Context {T : Torch}.

(** X20: the rows that a FIX_TRAIN call touches.  The input row is never
    written; a call that raises leaves the output row as it was; a call that
    returns has committed, in the weight row, the largest magnitude of the
    concatenated weights over the threshold of the weight bit width. *)
Theorem forward_FIX_TRAIN_rows (self : BaseWeightLayer) (inputs : Tensor)
    (input_config : option (list bit_scale)) :
  let s := self.(bit_scale_list) in
  let s' := fst (forward self inputs "FIX_TRAIN" input_config) in
  let r := snd (forward self inputs "FIX_TRAIN" input_config) in
  s'.(input_row) = s.(input_row)
  /\ (forall e, r = Raise e -> s'.(output_row) = s.(output_row))
  /\ (forall output, r = Ok output ->
      exists weight_total M,
        torch_cat self.(layer_list) = Ok weight_total
        /\ torch_max (torch_abs weight_total) = Ok M
        /\ 0 < M
        /\ s'.(weight_row)
           = (fst s.(weight_row), M / _get_thres (fst s.(weight_row)))).
Proof.
  unfold forward. cbn [String.eqb Ascii.eqb Bool.eqb].
  destruct (rbind (torch_cat (layer_list self)) _) as [[qw row1]|e] eqn:E1.
  - inv_bind E1 as W HW.
    destruct (Quantize_weight_Ok_inv W
                {| mode := "weight"; phase := None;
                   bit := fst (weight_row (bit_scale_list self)) |}
                (weight_row (bit_scale_list self)) qw row1 eq_refl E1)
      as (M & HM & HMpos & _ & _ & Hrow).
    cbn [bit] in Hrow.
    destruct (rbind (partial_func self inputs qw) _) as [[qo row2]|e] eqn:E2.
    + cbn. split; [reflexivity|]. split; [discriminate|].
      intros output _. exists W, M. repeat split; assumption.
    + cbn. split; [reflexivity|]. split; [reflexivity|]. discriminate.
  - cbn. split; [reflexivity|]. split; [reflexivity|]. discriminate.
Qed.

(** X21: in evaluation a FIX_TRAIN call holds the output row.  Whatever the
    call returns or raises, the output row keeps its bit width and its step
    (in phase test the range is read back from the row). *)
Theorem forward_FIX_TRAIN_eval_output_row (self : BaseWeightLayer) (inputs : Tensor)
    (input_config : option (list bit_scale)) :
  self.(training) = false ->
  let s' := fst (forward self inputs "FIX_TRAIN" input_config) in
  fst s'.(output_row) = fst self.(bit_scale_list).(output_row)
  /\ snd s'.(output_row) == snd self.(bit_scale_list).(output_row).
Proof.
  intros Ht. unfold forward. cbn [String.eqb Ascii.eqb Bool.eqb].
  destruct (rbind (torch_cat (layer_list self)) _) as [[qw row1]|e] eqn:E1;
    [|cbn; split; reflexivity].
  destruct (rbind (partial_func self inputs qw) _) as [[qo row2]|e] eqn:E2;
    [|cbn; split; reflexivity].
  inv_bind E2 as raw Hraw. rewrite Ht in E2. cbn [set_weight_row output_row] in E2.
  unfold Quantize, QuantizeFunction.forward, QuantizeFunction.get_scale in E2.
  cbn [mode phase bit String.eqb Ascii.eqb Bool.eqb rbind] in E2.
  destruct (quantize_Ok_inv _ _ _ _ E2) as [Hth Hsc].
  rewrite (quantize_Ok raw _ _ Hth Hsc) in E2. inversion E2; subst qo row2; clear E2.
  cbn. split; [reflexivity|]. field. assumption.
Qed.

(** X22: the first training pass of a layer.  On the buffer that
    [get_buffer_list] sets up, with an output bit width of at least one, a
    FIX_TRAIN call in training that returns has committed as output step
    the data estimate [3·std + |mean|] of the raw output over the threshold:
    the sentinel -1 takes no part in it. *)
Theorem forward_FIX_TRAIN_first_pass (self : BaseWeightLayer) (inputs : Tensor)
    (input_config : option (list bit_scale)) (output : Tensor) :
  self.(training) = true ->
  self.(bit_scale_list) = get_buffer_list self.(ini) ->
  (1 <= self.(ini).(quantize).(q_output))%Z ->
  snd (forward self inputs "FIX_TRAIN" input_config) = Ok output ->
  exists weight_total quantize_weight row raw sd mu,
    torch_cat self.(layer_list) = Ok weight_total
    /\ Quantize weight_total
         {| mode := "weight"; phase := None; bit := self.(ini).(quantize).(q_weight) |}
         (self.(ini).(quantize).(q_weight), - (1)) = Ok (quantize_weight, row)
    /\ self.(partial_func) inputs quantize_weight = Ok raw
    /\ torch_std raw = Ok sd /\ torch_mean raw = Ok mu
    /\ (fst (forward self inputs "FIX_TRAIN" input_config)).(output_row)
       = (self.(ini).(quantize).(q_output),
          (3 * sd + Qabs mu) / _get_thres self.(ini).(quantize).(q_output)).
Proof.
  intros Ht Hs Hb. unfold forward. rewrite Hs, Ht.
  cbn [String.eqb Ascii.eqb Bool.eqb get_buffer_list weight_row output_row fst].
  destruct (rbind (torch_cat (layer_list self)) _) as [[qw row1]|e] eqn:E1;
    [|cbn; discriminate].
  inv_bind E1 as W HW.
  destruct (rbind (partial_func self inputs qw) _) as [[qo row2]|e] eqn:E2;
    [|cbn; discriminate].
  inv_bind E2 as raw Hraw. intros _.
  cbn [set_weight_row get_buffer_list output_row fst snd] in E2.
  exists W, qw, row1, raw.
  unfold Quantize at 1, QuantizeFunction.forward, QuantizeFunction.get_scale in E2.
  cbn [mode phase bit String.eqb Ascii.eqb Bool.eqb snd fst] in E2.
  inv_bind E2 as scale Hscale. cbn [get_buffer_list output_row fst snd] in *.
  inv_bind Hscale as sd Hsd. inv_bind Hscale as mu Hmu.
  cbv zeta in Hscale.
  destruct (quantize_Ok_inv _ _ _ _ E2) as [Hth Hsc].
  assert (Hb2 : (2 <= q_output (quantize (ini self)))%Z)
    by (apply _get_thres_nonzero; assumption).
  destruct (_get_thres_pos _ Hb2) as (t & Ht1 & _ & Et).
  assert (Hle : Qle_bool (- (1) * _get_thres (q_output (quantize (ini self)))) 0 = true).
  { apply Qle_bool_iff. rewrite Et.
    assert (0 < inject_Z t) by (unfold Qlt; simpl; lia). lra. }
  rewrite Hle in Hscale. inversion Hscale; subst scale; clear Hscale.
  rewrite (quantize_Ok raw _ _ Hth Hsc) in E2. inversion E2; subst qo row2; clear E2.
  exists sd, mu. repeat split; assumption || reflexivity.
Qed.

(** X23: a hardware inference can be repeated.  The value of a
    SINGLE_FIX_TEST call does not depend on the input row stored before
    it, and a second call on the buffer that the first one left gives the
    same buffer and the same value or exception. *)
Theorem forward_SINGLE_FIX_TEST_repeat (self : BaseWeightLayer) (inputs : Tensor)
    (input_config : option (list bit_scale)) (stored : bit_scale) :
  snd (forward (with_bit_scale_list self (set_input_row self.(bit_scale_list) stored))
               inputs "SINGLE_FIX_TEST" input_config)
  = snd (forward self inputs "SINGLE_FIX_TEST" input_config)
  /\ forward (with_bit_scale_list self
                (fst (forward self inputs "SINGLE_FIX_TEST" input_config)))
             inputs "SINGLE_FIX_TEST" input_config
     = forward self inputs "SINGLE_FIX_TEST" input_config.
Proof.
  unfold forward. cbn [String.eqb Ascii.eqb Bool.eqb with_bit_scale_list training].
  destruct (training self); [split; reflexivity|].
  destruct input_config as [cfg|]; [|split; reflexivity].
  destruct (index cfg 0) as [r0|e]; split; reflexivity.
Qed.

(** X24: how TRADITION pairs sub-operations and pieces.  Sub-operations
    beyond the number of pieces of the input are ignored, and with no
    sub-operation or no piece at all the call raises the error of an empty
    [torch.stack]. *)
Theorem forward_TRADITION_pairs (self : BaseWeightLayer) (inputs : Tensor)
    (input_config : option (list bit_scale)) (input_list : list Tensor) :
  torch_split inputs self.(input_split_num) = Ok input_list ->
  snd (forward self inputs "TRADITION" input_config)
  = snd (forward (with_layer_list self (firstn (length input_list) self.(layer_list)))
                 inputs "TRADITION" input_config)
  /\ (self.(layer_list) = [] \/ input_list = [] ->
      snd (forward self inputs "TRADITION" input_config) = Raise RuntimeError).
Proof.
  intros Hsplit. unfold forward.
  cbn [String.eqb Ascii.eqb Bool.eqb with_layer_list input_split_num layer_list
       partial_func snd].
  rewrite Hsplit. cbn [rbind]. split.
  - now rewrite <- combine_firstn_r.
  - intros [-> | ->]; [reflexivity|]. now rewrite combine_nil.
Qed.

End ForwardModes.

(** The worked layer in evaluation. *)
Lemma forward_FIX_TRAIN_eval_output_row_witness :
  let s' := fst (forward (T := fc_torch 3) example_layer example_inputs
                   "FIX_TRAIN" None) in
  fst s'.(output_row) = fst example_layer.(bit_scale_list).(output_row)
  /\ snd s'.(output_row) == snd example_layer.(bit_scale_list).(output_row).
Proof.
  apply (forward_FIX_TRAIN_eval_output_row (T := fc_torch 3) example_layer
           example_inputs None).
  reflexivity.
Defined.

(** The worked layer, fresh and in training. *)
Lemma forward_FIX_TRAIN_first_pass_witness :
  exists weight_total quantize_weight row raw sd mu,
    torch_cat (Torch := fc_torch 3) training_layer.(layer_list) = Ok weight_total
    /\ Quantize (T := fc_torch 3) weight_total
         {| mode := "weight"; phase := None;
            bit := training_layer.(ini).(quantize).(q_weight) |}
         (training_layer.(ini).(quantize).(q_weight), - (1)) = Ok (quantize_weight, row)
    /\ training_layer.(partial_func) example_inputs quantize_weight = Ok raw
    /\ torch_std (Torch := fc_torch 3) raw = Ok sd /\ torch_mean raw = Ok mu
    /\ (fst (forward (T := fc_torch 3) training_layer example_inputs
                     "FIX_TRAIN" None)).(output_row)
       = (training_layer.(ini).(quantize).(q_output),
          (3 * sd + Qabs mu) / _get_thres training_layer.(ini).(quantize).(q_output)).
Proof.
  apply (forward_FIX_TRAIN_first_pass (T := fc_torch 3) training_layer example_inputs
           None example_train_output).
  - reflexivity.
  - reflexivity.
  - vm_compute. discriminate.
  - vm_compute. reflexivity.
Defined.

(** The worked layer with a third sub-operation, which no piece of the
    input reaches. *)
Lemma forward_TRADITION_pairs_witness :
  snd (forward (T := fc_torch 3)
               (with_layer_list example_layer (example_weights ++ [[1; 1; 1]]))
               example_inputs "TRADITION" None)
  = snd (forward (T := fc_torch 3)
           (with_layer_list
              (with_layer_list example_layer (example_weights ++ [[1; 1; 1]]))
              (firstn (length [[1; 2]; [3]])
                      (with_layer_list example_layer
                         (example_weights ++ [[1; 1; 1]])).(layer_list)))
           example_inputs "TRADITION" None)
  /\ ((with_layer_list example_layer (example_weights ++ [[1; 1; 1]])).(layer_list) = []
      \/ [[1; 2]; [3]] = [] ->
      snd (forward (T := fc_torch 3)
                   (with_layer_list example_layer (example_weights ++ [[1; 1; 1]]))
                   example_inputs "TRADITION" None)
      = Raise RuntimeError).
Proof.
  apply (forward_TRADITION_pairs (T := fc_torch 3)
           (with_layer_list example_layer (example_weights ++ [[1; 1; 1]]))
           example_inputs None [[1; 2]; [3]]).
  vm_compute. reflexivity.
Defined.

(** ** Steps that are committed *)

Section CommittedSteps.
Context {T : Torch}.

Lemma Quantize_step_nonzero (inputs : Tensor) (cfg : quantize_cfg)
    (last : bit_scale) (out : Tensor) (row : bit_scale) :
  Quantize inputs cfg last = Ok (out, row) -> ~ snd row == 0.
Proof.
  unfold Quantize, QuantizeFunction.forward. intros H.
  inv_bind H as scale Hscale.
  destruct (quantize_Ok_inv _ _ _ _ H) as [Hth Hsc].
  rewrite (quantize_Ok inputs _ _ Hth Hsc) in H. inversion H; subst out row; clear H.
  cbn [snd]. intros E. apply Hsc.
  rewrite <- (Qmult_div_r scale (_get_thres (bit cfg)) Hth). rewrite E. ring.
Qed.

Lemma forward_keeps_steps_nonzero (self : BaseWeightLayer) (inputs : Tensor)
    (method : string) (input_config : option (list bit_scale)) :
  ~ snd self.(bit_scale_list).(weight_row) == 0 ->
  ~ snd self.(bit_scale_list).(output_row) == 0 ->
  let s' := fst (forward self inputs method input_config) in
  ~ snd s'.(weight_row) == 0 /\ ~ snd s'.(output_row) == 0.
Proof.
  intros Hw Ho. unfold forward.
  destruct (String.eqb method "TRADITION"); [simpl; auto|].
  destruct (String.eqb method "FIX_TRAIN").
  - destruct (rbind (torch_cat (layer_list self)) _) as [[qw row1]|e] eqn:E1;
      [|simpl; auto].
    inv_bind E1. apply Quantize_step_nonzero in E1.
    destruct (rbind (partial_func self inputs qw) _) as [[qo row2]|e] eqn:E2;
      [|simpl; auto].
    inv_bind E2. apply Quantize_step_nonzero in E2.
    simpl. auto.
  - destruct (String.eqb method "SINGLE_FIX_TEST"); [|simpl; auto].
    destruct (training self); [simpl; auto|].
    destruct input_config as [cfg|]; [|simpl; auto].
    destruct (index cfg 0); simpl; auto.
Qed.

(** X25: no call commits a zero step.  Starting from a buffer whose weight
    step and output step are not zero, as the sentinel -1 of a new layer,
    every sequence of forward calls, in any modes and with any weights,
    inputs and train/eval flags, failing calls included, leaves a weight
    step and an output step other than zero. *)
Theorem committed_steps_nonzero (self : BaseWeightLayer) (calls : list call) :
  ~ snd self.(bit_scale_list).(weight_row) == 0 ->
  ~ snd self.(bit_scale_list).(output_row) == 0 ->
  let s' := (forward_calls self calls).(bit_scale_list) in
  ~ snd s'.(weight_row) == 0 /\ ~ snd s'.(output_row) == 0.
Proof.
  cbv zeta. revert self. induction calls as [|c calls IH]; intros self Hw Ho.
  - split; assumption.
  - unfold forward_calls in *. simpl fold_left.
    destruct (forward_keeps_steps_nonzero (prepare self c) c.(call_inputs)
                c.(call_method) c.(call_input_config) Hw Ho) as [Hw' Ho'].
    apply IH; assumption.
Qed.

End CommittedSteps.

(** The fresh layer after the six calls of [example_calls]. *)
Lemma committed_steps_nonzero_witness :
  let s' := (forward_calls (T := fc_torch 3) fresh_layer example_calls).(bit_scale_list) in
  ~ snd s'.(weight_row) == 0 /\ ~ snd s'.(output_row) == 0.
Proof.
  apply (committed_steps_nonzero (T := fc_torch 3) fresh_layer example_calls).
  - vm_compute. discriminate.
  - vm_compute. discriminate.
Defined.

(** ** Edges of the bit splitter *)

(** X26: the bit splitter at its edges.  A split width of zero raises the
    division by zero of the cycle count; with a split width of at least one
    and a bit width of at most one there is no cycle, and the splitter
    returns no slice at all. *)
Theorem split_by_bit_edges (tensor : Tensor) (scale : Q) (bit_width bit_split : Z) :
  split_by_bit tensor scale bit_width 0 = Raise ZeroDivisionError
  /\ ((1 <= bit_split)%Z -> (bit_width <= 1)%Z -> ~ scale == 0 ->
      split_by_bit tensor scale bit_width bit_split = Ok []).
Proof.
  split; [reflexivity|]. intros Hs Hb Hsc.
  assert (Hcyc : exists c, _get_cycle bit_width bit_split = Ok c /\ (c <= 0)%Z).
  { unfold _get_cycle. destruct (Z.eqb_spec bit_split 0) as [E|_]; [lia|].
    eexists. split; [reflexivity|].
    assert (Hle : inject_Z (bit_width - 1) / inject_Z bit_split <= inject_Z 0).
    { apply Qle_shift_div_r; [unfold Qlt; simpl; lia|].
      rewrite <- inject_Z_mult. rewrite <- Zle_Qle. lia. }
    apply Qceiling_resp_le in Hle. now rewrite Qceiling_Z in Hle. }
  destruct Hcyc as (c & Ecyc & Hc).
  rewrite (split_by_bit_entries tensor scale bit_width bit_split c Hsc Ecyc).
  unfold range. replace (Z.to_nat c) with 0%nat by lia. reflexivity.
Qed.

(** One bit leaves no digit to split. *)
Lemma split_by_bit_edges_witness :
  split_by_bit example_tensor 1 1 0 = Raise ZeroDivisionError
  /\ split_by_bit example_tensor 1 1 2 = Ok [].
Proof.
  split.
  - apply (proj1 (split_by_bit_edges example_tensor 1 1 2)).
  - apply (proj2 (split_by_bit_edges example_tensor 1 1 2)).
    + lia.
    + lia.
    + vm_compute. discriminate.
Defined.
